(** * gofums: the word emitter of [main.go]

    [main.go] starts one goroutine, [emit], that offers the words
    "feed", "the", "monkey" in a cycle on the unbuffered channel
    [wordChannel], and selects between that send and a receive on the
    unbuffered channel [doneChannel].  [main] receives and prints 101
    words, sends [true] on [doneChannel] and returns.

    The two goroutines are embedded as two small program-counter machines;
    the program is their composition under Go's rules for unbuffered
    channels (a send and a receive meet in one step), for closed channels
    (receive yields the zero value, send and a second close panic), for
    [select] (any ready case may be taken) and for the end of the program
    (when [main] returns the process exits, whatever [emit] is doing).

    After the program of [main.go] come the programs and functions that
    [notes.md] gives in Go: the same program with an acknowledgement on
    [doneChannel], [getID], [SummableSlice.sum], [shuffle] and
    [WeightedShuffle], and package [poem] with [LoadPoem]. *)

From Stdlib Require Import ZArith Ascii String List Bool Lia Wf_nat Permutation FinFun.
Import ListNotations.
Local Open Scope Z_scope.

(** ** Values *)

(** Go's [int] on a 64-bit platform: [i++] wraps around. *)
Definition wrap_int (z : Z) : Z := (z + 2 ^ 63) mod 2 ^ 64 - 2 ^ 63.

(** [words := []string{"feed", "the", "monkey"}] *)
Definition words : list string := ["feed"; "the"; "monkey"]%string.

(** [len(words)] *)
Definition len (l : list string) : Z := Z.of_nat (List.length l).

(** [l[i]]: [None] stands for the runtime panic "index out of range". *)
Definition index (l : list string) (i : Z) : option string :=
  if (0 <=? i) && (i <? len l) then nth_error l (Z.to_nat i) else None.

(** An unbuffered channel holds no value; the only state it has is
    whether it was closed.  Goroutines waiting on it are visible in their
    program counters. *)
Record chan := mkChan { closed : bool }.

(** [make(chan T)] *)
Definition make : chan := mkChan false.

(** ** The goroutine [emit] *)

Inductive emit_pc :=
| ESelect              (* top of the [for]: about to enter the [select] *)
| EOffer (w : string)  (* inside the [select]; [words[i]] evaluated to [w] *)
| ESent                (* the send case was taken; its body is to run *)
| EDone                (* the done case was taken; about to [close] *)
| EReturned.           (* [return] executed *)

Record emit_state := mkEmit { e_pc : emit_pc; e_i : Z }.

(** [i := 0] *)
Definition emit_init : emit_state := mkEmit ESelect 0.

(** Entering the [select] evaluates the operand [words[i]] of the send
    case. *)
Definition emit_enter (e : emit_state) : option emit_state :=
  match index words (e_i e) with
  | Some w => Some (mkEmit (EOffer w) (e_i e))
  | None => None
  end.

(** [case wordChannel <- words[i]:] was chosen. *)
Definition emit_send_case (e : emit_state) : emit_state :=
  mkEmit ESent (e_i e).

(** The body of the send case: [i++; if i == len(words) { i = 0 }]. *)
Definition emit_body (e : emit_state) : emit_state :=
  let i1 := wrap_int (e_i e + 1) in
  mkEmit ESelect (if i1 =? len words then 0 else i1).

(** [case <-doneChannel:] was chosen; the received value [b] is dropped. *)
Definition emit_done_case (b : bool) (e : emit_state) : emit_state :=
  mkEmit EDone (e_i e).

(** [close(doneChannel); return] (the channel is closed by [step]). *)
Definition emit_close (e : emit_state) : emit_state :=
  mkEmit EReturned (e_i e).

(** [emit] as a process on its own, whatever is at the other end of its
    channels. *)
Inductive emit_action :=
| AEnter
| ASend (w : string)
| ABody
| ARecvDone (b : bool)
| AClose.

Definition emit_step (a : emit_action) (e : emit_state) : option emit_state :=
  match a, e_pc e with
  | AEnter, ESelect => emit_enter e
  | ASend w, EOffer w' => if String.eqb w w' then Some (emit_send_case e) else None
  | ABody, ESent => Some (emit_body e)
  | ARecvDone b, EOffer _ => Some (emit_done_case b e)
  | AClose, EDone => Some (emit_close e)
  | _, _ => None
  end.

Fixpoint emit_run (l : list emit_action) (e : emit_state) : option emit_state :=
  match l with
  | [] => Some e
  | a :: l' =>
      match emit_step a e with
      | Some e' => emit_run l' e'
      | None => None
      end
  end.

Definition emit_in_loop (e : emit_state) : bool :=
  match e_pc e with
  | ESelect | EOffer _ | ESent => true
  | EDone | EReturned => false
  end.

Definition is_recv_done (a : emit_action) : bool :=
  match a with ARecvDone _ => true | _ => false end.

(** One turn of the loop through the send case. *)
Definition emit_round (i : Z) : list emit_action :=
  match index words i with
  | Some w => [AEnter; ASend w; ABody]
  | None => []
  end.

Fixpoint emit_rounds (n : nat) (i : Z) : list emit_action :=
  match n with
  | O => []
  | S n' => emit_round i ++ emit_rounds n' ((i + 1) mod len words)
  end.

(** ** The goroutine [main] *)

Inductive main_pc :=
| MTest                (* [i <= 100] is to be evaluated *)
| MRecv                (* waiting in [<-wordChannel] *)
| MPrint (w : string)  (* [w] received; [fmt.Println(w)] is to run *)
| MPost                (* the post statement [i++] is to run *)
| MStop                (* waiting in [doneChannel <- true] *)
| MReturn.             (* the send is over; [main] is about to return *)

Record main_state := mkMain { m_pc : main_pc; m_i : Z }.

(** [for i := 0; ...] *)
Definition main_init : main_state := mkMain MTest 0.

(** The loop condition [i <= 100]. *)
Definition main_test (m : main_state) : main_state :=
  mkMain (if m_i m <=? 100 then MRecv else MStop) (m_i m).

(** [<-wordChannel] yields [w]. *)
Definition main_recv (w : string) (m : main_state) : main_state :=
  mkMain (MPrint w) (m_i m).

(** [i++] *)
Definition main_post (m : main_state) : main_state :=
  mkMain MTest (wrap_int (m_i m + 1)).

(** The value sent in [doneChannel <- true]. *)
Definition stop_value : bool := true.

(** ** The program *)

Inductive status := Running | Exited | Crashed.

Record state := mkState {
  st : status;
  producer : emit_state;
  consumer : main_state;
  wordChannel : chan;
  doneChannel : chan;
  stdout : list string
}.

(** The state right after [go emit(wordChannel, doneChannel)]. *)
Definition init : state :=
  mkState Running emit_init main_init make make [].

Inductive event :=
| Eval                    (* [emit] evaluated [words[i]], entering the [select] *)
| Transfer (w : string)   (* [w] went from [emit] to [main] on [wordChannel] *)
| Advance                 (* [emit] ran the body of its send case *)
| Stop (b : bool)         (* [b] went from [main] to [emit] on [doneChannel] *)
| DoneClosed              (* [emit] received from the closed [doneChannel] *)
| Close                   (* [emit] closed [doneChannel] and returned *)
| Test (b : bool)         (* [main] evaluated [i <= 100] *)
| WordClosed              (* [main] received from the closed [wordChannel] *)
| Println (w : string)    (* [main] printed a line *)
| Post                    (* [main] ran [i++] *)
| Exit                    (* [main] returned: the process exits *)
| Panic (msg : string).   (* a runtime panic: the process crashes *)

Inductive branch := SendBranch | DoneBranch.

(** What the scheduler may pick: a goroutine that runs a statement by
    itself, or a case of [emit]'s [select]. *)
Inductive pick := RunEmit | RunMain | Case (b : branch).

Definition set_producer (e : emit_state) (s : state) : state :=
  mkState (st s) e (consumer s) (wordChannel s) (doneChannel s) (stdout s).

Definition set_consumer (m : main_state) (s : state) : state :=
  mkState (st s) (producer s) m (wordChannel s) (doneChannel s) (stdout s).

Definition set_status (x : status) (s : state) : state :=
  mkState x (producer s) (consumer s) (wordChannel s) (doneChannel s) (stdout s).

Definition close_done (s : state) : state :=
  mkState (st s) (producer s) (consumer s) (wordChannel s) (mkChan true) (stdout s).

Definition print (w : string) (s : state) : state :=
  mkState (st s) (producer s) (consumer s) (wordChannel s) (doneChannel s)
          (stdout s ++ [w]).

Definition crash (msg : string) (s : state) : option (event * state) :=
  Some (Panic msg, set_status Crashed s).

(** A statement [emit] runs without a partner. *)
Definition step_emit (s : state) : option (event * state) :=
  let e := producer s in
  match e_pc e with
  | ESelect =>
      match emit_enter e with
      | Some e' => Some (Eval, set_producer e' s)
      | None => crash "index out of range" s
      end
  | ESent => Some (Advance, set_producer (emit_body e) s)
  | EDone =>
      if closed (doneChannel s) then crash "close of closed channel" s
      else Some (Close, close_done (set_producer (emit_close e) s))
  | EOffer _ | EReturned => None
  end.

(** A statement [main] runs without a partner.  A receive from a closed
    channel yields the zero value at once; a send on a closed channel
    panics; on an open channel both wait for the other side. *)
Definition step_main (s : state) : option (event * state) :=
  let m := consumer s in
  match m_pc m with
  | MTest => Some (Test (m_i m <=? 100), set_consumer (main_test m) s)
  | MRecv =>
      if closed (wordChannel s)
      then Some (WordClosed, set_consumer (main_recv "" m) s)
      else None
  | MPrint w => Some (Println w, print w (set_consumer (mkMain MPost (m_i m)) s))
  | MPost => Some (Post, set_consumer (main_post m) s)
  | MStop =>
      if closed (doneChannel s) then crash "send on closed channel" s else None
  | MReturn => Some (Exit, set_status Exited s)
  end.

(** Is a case of the [select] ready, given the channels and what [main]
    is doing? *)
Definition ready (b : branch) (s : state) : bool :=
  match b with
  | SendBranch =>
      closed (wordChannel s) ||
      match m_pc (consumer s) with MRecv => true | _ => false end
  | DoneBranch =>
      closed (doneChannel s) ||
      match m_pc (consumer s) with MStop => true | _ => false end
  end.

(** [emit] takes a case of its [select]. *)
Definition step_case (b : branch) (s : state) : option (event * state) :=
  let e := producer s in
  let m := consumer s in
  match e_pc e with
  | EOffer w =>
      if ready b s then
        match b with
        | SendBranch =>
            if closed (wordChannel s) then crash "send on closed channel" s
            else Some (Transfer w,
                       set_consumer (main_recv w m)
                         (set_producer (emit_send_case e) s))
        | DoneBranch =>
            if closed (doneChannel s)
            then Some (DoneClosed, set_producer (emit_done_case false e) s)
            else Some (Stop stop_value,
                       set_consumer (mkMain MReturn (m_i m))
                         (set_producer (emit_done_case stop_value e) s))
        end
      else None
  | _ => None
  end.

(** One step of the program under the scheduler's pick; [None] when the
    pick cannot run.  Nothing runs once the process has exited or
    crashed. *)
Definition step (p : pick) (s : state) : option (event * state) :=
  match st s with
  | Running =>
      match p with
      | RunEmit => step_emit s
      | RunMain => step_main s
      | Case b => step_case b s
      end
  | Exited | Crashed => None
  end.

(** A schedule is the list of the scheduler's picks; [run] follows it and
    returns the events and the state reached, or [None] if some pick could
    not run. *)
Fixpoint run (sched : list pick) (s : state) : option (list event * state) :=
  match sched with
  | [] => Some ([], s)
  | p :: sched' =>
      match step p s with
      | Some (e, s') =>
          match run sched' s' with
          | Some (tr, s'') => Some (e :: tr, s'')
          | None => None
          end
      | None => None
      end
  end.

Definition picks : list pick := [RunEmit; RunMain; Case SendBranch; Case DoneBranch].

Definition enabled (p : pick) (s : state) : bool :=
  match step p s with Some _ => true | None => false end.

(** No pick can run: the execution is over (or stuck). *)
Definition halted (s : state) : bool := negb (existsb (fun p => enabled p s) picks).

(** ** Observations on a trace *)

Definition transfers (tr : list event) : list string :=
  flat_map (fun e => match e with Transfer w => [w] | _ => [] end) tr.

Definition printed (tr : list event) : list string :=
  flat_map (fun e => match e with Println w => [w] | _ => [] end) tr.

Definition stops (tr : list event) : list bool :=
  flat_map (fun e => match e with Stop b => [b] | _ => [] end) tr.

Definition is_close (e : event) : bool :=
  match e with Close => true | _ => false end.

Definition is_panic (e : event) : bool :=
  match e with Panic _ => true | _ => false end.

Definition is_done_branch (e : event) : bool :=
  match e with Stop _ | DoneClosed => true | _ => false end.

Definition closes (tr : list event) : nat := List.length (filter is_close tr).

(** ** Schedules used as examples *)

(** One iteration of both loops, then the shutdown with [emit] closing the
    channel before [main] returns, and the shutdown where [main] returns
    first. *)
Definition round : list pick :=
  [RunEmit; RunMain; Case SendBranch; RunEmit; RunMain; RunMain].

Definition rounds (n : nat) : list pick := concat (repeat round n).

Definition sched_close_first : list pick :=
  rounds 101 ++ [RunEmit; RunMain; Case DoneBranch; RunEmit; RunMain].

Definition sched_exit_first : list pick :=
  rounds 101 ++ [RunEmit; RunMain; Case DoneBranch; RunMain].

(** The cycle repeated and truncated to [n] elements. *)
Definition cycle (n : nat) (l : list string) : list string :=
  firstn n (concat (repeat l n)).

(** The word at position [k] of the cycle (counting from 0). *)
Definition word_at (k : Z) : string :=
  nth (Z.to_nat (k mod len words)) words ""%string.

Definition word_seq (n : nat) : list string :=
  map (fun k => word_at (Z.of_nat k)) (seq 0 n).

(** The trace and the final state of the run of a schedule from [init]. *)
Definition trace_of (sched : list pick) : list event :=
  match run sched init with Some (tr, _) => tr | None => [] end.

Definition final_of (sched : list pick) : state :=
  match run sched init with Some (_, s) => s | None => init end.

(** A printed line holds one word: it is not empty and has no blank and no
    line break in it. *)
Definition single_word (w : string) : bool :=
  negb (String.eqb w "") &&
  forallb (fun c => negb (Ascii.eqb c " " || Ascii.eqb c "010"))
          (list_ascii_of_string w).

(** ** A measure of the steps that are left *)

(** Iterations of [main]'s loop that remain when its counter is [i]. *)
Definition iters (i : Z) : Z := Z.max 0 (101 - i).

Definition main_rank (m : main_state) : Z :=
  match m_pc m with
  | MTest => if m_i m <=? 100 then 4 * iters (m_i m) + 3 else 3
  | MRecv => 4 * iters (wrap_int (m_i m + 1)) + 6
  | MPrint _ => 4 * iters (wrap_int (m_i m + 1)) + 5
  | MPost => 4 * iters (wrap_int (m_i m + 1)) + 4
  | MStop => 2
  | MReturn => 1
  end.

Definition emit_rank (e : emit_state) : Z :=
  match e_pc e with
  | ESent => 4
  | ESelect => 3
  | EOffer _ => 2
  | EDone => 1
  | EReturned => 0
  end.

Definition measure (s : state) : Z :=
  match st s with
  | Running => 1 + 3 * main_rank (consumer s) + emit_rank (producer s)
  | Exited | Crashed => 0
  end.

(** ** The invariant of the program *)

(** Words [main] has received so far. *)
Definition received (m : main_state) : Z :=
  match m_pc m with
  | MPrint _ | MPost => m_i m + 1
  | MTest | MRecv | MStop | MReturn => m_i m
  end.

(** Lines [main] has printed so far. *)
Definition lines (m : main_state) : Z :=
  match m_pc m with
  | MPost => m_i m + 1
  | MTest | MRecv | MPrint _ | MStop | MReturn => m_i m
  end.

Definition main_ok (m : main_state) : Prop :=
  match m_pc m with
  | MTest => 0 <= m_i m <= 101
  | MRecv | MPost => 0 <= m_i m <= 100
  | MPrint w => 0 <= m_i m <= 100 /\ w = word_at (m_i m)
  | MStop | MReturn => m_i m = 101
  end.

Definition emit_ok (e : emit_state) (m : main_state) : Prop :=
  0 <= e_i e < 3 /\
  match e_pc e with
  | ESelect => e_i e = received m mod 3 /\ m_pc m <> MReturn
  | EOffer w =>
      e_i e = received m mod 3 /\ w = word_at (received m) /\ m_pc m <> MReturn
  | ESent => (e_i e + 1) mod 3 = received m mod 3 /\ m_pc m <> MReturn
  | EDone | EReturned => m_pc m = MReturn
  end.

Definition is_closed_recv (e : event) : bool :=
  match e with DoneClosed | WordClosed => true | _ => false end.

Definition quiet (e : event) : bool := negb (is_panic e || is_closed_recv e).

Record Inv (tr : list event) (s : state) : Prop := mkInv {
  inv_status : st s <> Crashed;
  inv_exit : st s = Exited -> m_pc (consumer s) = MReturn;
  inv_main : main_ok (consumer s);
  inv_emit : emit_ok (producer s) (consumer s);
  inv_word : closed (wordChannel s) = false;
  inv_done : closed (doneChannel s) =
             match e_pc (producer s) with EReturned => true | _ => false end;
  inv_out : stdout s = word_seq (Z.to_nat (lines (consumer s)));
  inv_transfers : transfers tr = word_seq (Z.to_nat (received (consumer s)));
  inv_printed : printed tr = stdout s;
  inv_stops : stops tr =
              match m_pc (consumer s) with MReturn => [stop_value] | _ => [] end;
  inv_closes : closes tr = if closed (doneChannel s) then 1%nat else 0%nat;
  inv_quiet : forallb quiet tr = true
}.



(** ** The [select] of [emit] against any environment *)

(** What the other goroutines offer on the two channels: whether one of
    them waits in [<-wordChannel], and the value of one that waits in
    [doneChannel <- v]. *)
Record offers := mkOffers {
  word_receiver : bool;
  stop_sender : option bool
}.

(** What [main] offers. *)
Definition main_offers (m : main_state) : offers :=
  mkOffers (match m_pc m with MRecv => true | _ => false end)
           (match m_pc m with MStop => Some stop_value | _ => None end).

(** [emit] takes case [b] of its [select], with [o] at the other end of
    the channels [wc] and [dc]: the event and [emit] afterwards, [None]
    when the case cannot proceed.  A case proceeds when its channel is
    closed (the send then panics, the receive yields the zero value) or
    when its partner waits; the other case has no say in it. *)
Definition emit_select (b : branch) (o : offers) (wc dc : chan) (e : emit_state)
  : option (event * emit_state) :=
  match e_pc e with
  | EOffer w =>
      match b with
      | SendBranch =>
          if closed wc then Some (Panic "send on closed channel", e)
          else if word_receiver o then Some (Transfer w, emit_send_case e)
          else None
      | DoneBranch =>
          if closed dc then Some (DoneClosed, emit_done_case false e)
          else match stop_sender o with
               | Some v => Some (Stop v, emit_done_case v e)
               | None => None
               end
      end
  | _ => None
  end.

(** The state of the program after [emit] took a case with event [ev]:
    the partner of a rendezvous moves on with it, a panic crashes the
    process. *)
Definition deliver (ev : event) (e' : emit_state) (s : state) : state :=
  match ev with
  | Transfer w => set_consumer (main_recv w (consumer s)) (set_producer e' s)
  | Stop _ => set_consumer (mkMain MReturn (m_i (consumer s))) (set_producer e' s)
  | Panic _ => set_status Crashed s
  | _ => set_producer e' s
  end.

(** ** The program of [notes.md], section "the select keyword"

    The notes give the same program with an acknowledgement: in the done
    case [emit] runs [close(doneChannel); doneChannel <- true] and does
    not return (the [for] goes on), and [main] ends with [<-doneChannel]
    after its send. *)

Inductive notes_emit_pc :=
| NSelect              (* top of the [for] *)
| NOffer (w : string)  (* inside the [select], [words[i]] evaluated *)
| NSent                (* send case taken, body to run *)
| NDone                (* done case taken, about to [close(doneChannel)] *)
| NClosed.             (* closed; about to run [doneChannel <- true] *)

Record notes_emit_state := mkNEmit { ne_pc : notes_emit_pc; ne_i : Z }.

Inductive notes_main_pc :=
| NMTest
| NMRecv
| NMPrint (w : string)
| NMPost
| NMStop               (* waiting in [doneChannel <- true] *)
| NMWait               (* waiting in the final [<-doneChannel] *)
| NMReturn.

Record notes_main_state := mkNMain { nm_pc : notes_main_pc; nm_i : Z }.

Record notes_state := mkNState {
  n_st : status;
  n_producer : notes_emit_state;
  n_consumer : notes_main_state;
  n_wordChannel : chan;
  n_doneChannel : chan;
  n_stdout : list string
}.

Definition notes_init : notes_state :=
  mkNState Running (mkNEmit NSelect 0) (mkNMain NMTest 0) make make [].

Inductive notes_event :=
| NEval
| NTransfer (w : string)
| NAdvance
| NStop (b : bool)       (* [main]'s [true] received in [emit]'s done case *)
| NDoneClosed            (* done case taken on the closed channel *)
| NClose                 (* [emit] closed [doneChannel] *)
| NAck (b : bool)        (* [emit]'s [doneChannel <- true] received by [main] *)
| NWaitClosed            (* [main]'s [<-doneChannel] got the zero value *)
| NTest (b : bool)
| NWordClosed
| NPrintln (w : string)
| NPost
| NExit
| NPanic (msg : string).

(** The scheduler's picks: a goroutine alone, a case of the [select], or
    [emit]'s send on [doneChannel] meeting [main]'s final receive. *)
Inductive notes_pick := NRunEmit | NRunMain | NCase (b : branch) | NMeet.

Definition n_set_producer (e : notes_emit_state) (s : notes_state) : notes_state :=
  mkNState (n_st s) e (n_consumer s) (n_wordChannel s) (n_doneChannel s) (n_stdout s).

Definition n_set_consumer (m : notes_main_state) (s : notes_state) : notes_state :=
  mkNState (n_st s) (n_producer s) m (n_wordChannel s) (n_doneChannel s) (n_stdout s).

Definition n_set_status (x : status) (s : notes_state) : notes_state :=
  mkNState x (n_producer s) (n_consumer s) (n_wordChannel s) (n_doneChannel s)
           (n_stdout s).

Definition n_close_done (s : notes_state) : notes_state :=
  mkNState (n_st s) (n_producer s) (n_consumer s) (n_wordChannel s) (mkChan true)
           (n_stdout s).

Definition n_print (w : string) (s : notes_state) : notes_state :=
  mkNState (n_st s) (n_producer s) (n_consumer s) (n_wordChannel s)
           (n_doneChannel s) (n_stdout s ++ [w]).

Definition n_crash (msg : string) (s : notes_state)
  : option (notes_event * notes_state) :=
  Some (NPanic msg, n_set_status Crashed s).

(** The body of the send case, as in [emit_body]. *)
Definition notes_body (i : Z) : Z :=
  let i1 := wrap_int (i + 1) in if i1 =? len words then 0 else i1.

Definition notes_step_emit (s : notes_state) : option (notes_event * notes_state) :=
  let e := n_producer s in
  match ne_pc e with
  | NSelect =>
      match index words (ne_i e) with
      | Some w => Some (NEval, n_set_producer (mkNEmit (NOffer w) (ne_i e)) s)
      | None => n_crash "index out of range" s
      end
  | NSent => Some (NAdvance, n_set_producer (mkNEmit NSelect (notes_body (ne_i e))) s)
  | NDone =>
      if closed (n_doneChannel s) then n_crash "close of closed channel" s
      else Some (NClose, n_close_done (n_set_producer (mkNEmit NClosed (ne_i e)) s))
  | NClosed =>
      if closed (n_doneChannel s) then n_crash "send on closed channel" s
      else None
  | NOffer _ => None
  end.

Definition notes_step_main (s : notes_state) : option (notes_event * notes_state) :=
  let m := n_consumer s in
  match nm_pc m with
  | NMTest =>
      Some (NTest (nm_i m <=? 100),
            n_set_consumer
              (mkNMain (if nm_i m <=? 100 then NMRecv else NMStop) (nm_i m)) s)
  | NMRecv =>
      if closed (n_wordChannel s)
      then Some (NWordClosed, n_set_consumer (mkNMain (NMPrint "") (nm_i m)) s)
      else None
  | NMPrint w =>
      Some (NPrintln w, n_print w (n_set_consumer (mkNMain NMPost (nm_i m)) s))
  | NMPost =>
      Some (NPost, n_set_consumer (mkNMain NMTest (wrap_int (nm_i m + 1))) s)
  | NMStop =>
      if closed (n_doneChannel s) then n_crash "send on closed channel" s
      else None
  | NMWait =>
      if closed (n_doneChannel s)
      then Some (NWaitClosed, n_set_consumer (mkNMain NMReturn (nm_i m)) s)
      else None
  | NMReturn => Some (NExit, n_set_status Exited s)
  end.

Definition notes_ready (b : branch) (s : notes_state) : bool :=
  match b with
  | SendBranch =>
      closed (n_wordChannel s) ||
      match nm_pc (n_consumer s) with NMRecv => true | _ => false end
  | DoneBranch =>
      closed (n_doneChannel s) ||
      match nm_pc (n_consumer s) with NMStop => true | _ => false end
  end.

Definition notes_step_case (b : branch) (s : notes_state)
  : option (notes_event * notes_state) :=
  let e := n_producer s in
  let m := n_consumer s in
  match ne_pc e with
  | NOffer w =>
      if notes_ready b s then
        match b with
        | SendBranch =>
            if closed (n_wordChannel s) then n_crash "send on closed channel" s
            else Some (NTransfer w,
                       n_set_consumer (mkNMain (NMPrint w) (nm_i m))
                         (n_set_producer (mkNEmit NSent (ne_i e)) s))
        | DoneBranch =>
            if closed (n_doneChannel s)
            then Some (NDoneClosed, n_set_producer (mkNEmit NDone (ne_i e)) s)
            else Some (NStop stop_value,
                       n_set_consumer (mkNMain NMWait (nm_i m))
                         (n_set_producer (mkNEmit NDone (ne_i e)) s))
        end
      else None
  | _ => None
  end.

(** [emit]'s [doneChannel <- true] and [main]'s [<-doneChannel] meet, on
    the open channel; the done case is then over and the [for] goes on. *)
Definition notes_step_meet (s : notes_state) : option (notes_event * notes_state) :=
  match ne_pc (n_producer s), nm_pc (n_consumer s) with
  | NClosed, NMWait =>
      if closed (n_doneChannel s) then None
      else Some (NAck true,
                 n_set_consumer (mkNMain NMReturn (nm_i (n_consumer s)))
                   (n_set_producer (mkNEmit NSelect (ne_i (n_producer s))) s))
  | _, _ => None
  end.

Definition notes_step (p : notes_pick) (s : notes_state)
  : option (notes_event * notes_state) :=
  match n_st s with
  | Running =>
      match p with
      | NRunEmit => notes_step_emit s
      | NRunMain => notes_step_main s
      | NCase b => notes_step_case b s
      | NMeet => notes_step_meet s
      end
  | Exited | Crashed => None
  end.

Fixpoint notes_run (sched : list notes_pick) (s : notes_state)
  : option (list notes_event * notes_state) :=
  match sched with
  | [] => Some ([], s)
  | p :: sched' =>
      match notes_step p s with
      | Some (e, s') =>
          match notes_run sched' s' with
          | Some (tr, s'') => Some (e :: tr, s'')
          | None => None
          end
      | None => None
      end
  end.

Definition notes_picks : list notes_pick :=
  [NRunEmit; NRunMain; NCase SendBranch; NCase DoneBranch; NMeet].

Definition notes_halted (s : notes_state) : bool :=
  negb (existsb (fun p => match notes_step p s with Some _ => true | None => false end)
          notes_picks).

Definition notes_panics (tr : list notes_event) : list string :=
  flat_map (fun e => match e with NPanic m => [m] | _ => [] end) tr.

Definition notes_acks (tr : list notes_event) : list bool :=
  flat_map (fun e => match e with NAck b => [b] | _ => [] end) tr.

Definition notes_round : list notes_pick :=
  [NRunEmit; NRunMain; NCase SendBranch; NRunEmit; NRunMain; NRunMain].

(** All words, the stop signal and the [close]; then [emit] runs into its
    send on the closed channel, or [main] gets to return first. *)
Definition notes_sched_crash : list notes_pick :=
  concat (repeat notes_round 101)
  ++ [NRunEmit; NRunMain; NCase DoneBranch; NRunEmit; NRunEmit].

Definition notes_sched_exit : list notes_pick :=
  concat (repeat notes_round 101)
  ++ [NRunEmit; NRunMain; NCase DoneBranch; NRunEmit; NRunMain; NRunMain].

Definition notes_trace_of (sched : list notes_pick) : list notes_event :=
  match notes_run sched notes_init with Some (tr, _) => tr | None => [] end.

Definition notes_final_of (sched : list notes_pick) : notes_state :=
  match notes_run sched notes_init with Some (_, s) => s | None => notes_init end.

Definition notes_main_rank (m : notes_main_state) : Z :=
  match nm_pc m with
  | NMTest => if nm_i m <=? 100 then 4 * iters (nm_i m) + 4 else 4
  | NMRecv => 4 * iters (wrap_int (nm_i m + 1)) + 7
  | NMPrint _ => 4 * iters (wrap_int (nm_i m + 1)) + 6
  | NMPost => 4 * iters (wrap_int (nm_i m + 1)) + 5
  | NMStop => 3
  | NMWait => 2
  | NMReturn => 1
  end.

Definition notes_emit_rank (e : notes_emit_state) : Z :=
  match ne_pc e with
  | NSent => 4
  | NSelect => 3
  | NOffer _ => 2
  | NDone => 1
  | NClosed => 0
  end.

Definition notes_measure (s : notes_state) : Z :=
  match n_st s with
  | Running => 1 + 5 * notes_main_rank (n_consumer s) + notes_emit_rank (n_producer s)
  | Exited | Crashed => 0
  end.

Definition notes_received (m : notes_main_state) : Z :=
  match nm_pc m with
  | NMPrint _ | NMPost => nm_i m + 1
  | _ => nm_i m
  end.

Definition notes_lines (m : notes_main_state) : Z :=
  match nm_pc m with
  | NMPost => nm_i m + 1
  | _ => nm_i m
  end.

Definition notes_main_ok (m : notes_main_state) : Prop :=
  match nm_pc m with
  | NMTest => 0 <= nm_i m <= 101
  | NMRecv | NMPost => 0 <= nm_i m <= 100
  | NMPrint w => 0 <= nm_i m <= 100 /\ w = word_at (nm_i m)
  | NMStop | NMWait | NMReturn => nm_i m = 101
  end.

Definition notes_emit_ok (e : notes_emit_state) (m : notes_main_state) : Prop :=
  0 <= ne_i e < 3 /\
  match ne_pc e with
  | NSelect =>
      ne_i e = notes_received m mod 3 /\ nm_pc m <> NMWait /\ nm_pc m <> NMReturn
  | NOffer w =>
      ne_i e = notes_received m mod 3 /\ w = word_at (notes_received m) /\
      nm_pc m <> NMWait /\ nm_pc m <> NMReturn
  | NSent =>
      (ne_i e + 1) mod 3 = notes_received m mod 3 /\
      nm_pc m <> NMWait /\ nm_pc m <> NMReturn
  | NDone => nm_pc m = NMWait
  | NClosed => nm_pc m = NMWait \/ nm_pc m = NMReturn
  end.

Record notes_Inv (tr : list notes_event) (s : notes_state) : Prop := mkNInv {
  ninv_exit : n_st s = Exited -> nm_pc (n_consumer s) = NMReturn;
  ninv_crash : n_st s = Crashed <-> notes_panics tr <> [];
  ninv_panics : notes_panics tr = [] \/
                (notes_panics tr = ["send on closed channel"%string] /\
                 ne_pc (n_producer s) = NClosed);
  ninv_main : notes_main_ok (n_consumer s);
  ninv_emit : notes_emit_ok (n_producer s) (n_consumer s);
  ninv_word : closed (n_wordChannel s) = false;
  ninv_done : closed (n_doneChannel s) =
              match ne_pc (n_producer s) with NClosed => true | _ => false end;
  ninv_out : n_stdout s = word_seq (Z.to_nat (notes_lines (n_consumer s)));
  ninv_acks : notes_acks tr = []
}.

(** ** Functions of [notes.md]

    [len] of a slice is a non-negative [int]; the counters that the
    functions add to are [int]s and wrap around. *)

(** What a call can come to. *)
Inductive outcome (A : Type) :=
| Returns (a : A)
| Panics (msg : string)
| OutOfFuel.

Arguments Returns {A} a.
Arguments Panics {A} msg.
Arguments OutOfFuel {A}.

(** [func (s SummableSlice) sum() int] *)
Definition SummableSlice_sum (s : list Z) : Z :=
  fold_left (fun sum n => wrap_int (sum + n)) s 0.

(** *** Package [poem]

    A [Line] is a string; it is taken as the sequence of the runes that
    [range] yields on it (code points). *)
Abbreviation rune := Z (only parsing).
Abbreviation Line := (list rune) (only parsing).
Abbreviation Stanza := (list Line) (only parsing).
Abbreviation Poem := (list Stanza) (only parsing).

(** A line of ASCII text as its runes. *)
Definition line_of (s : string) : Line :=
  map (fun c => Z.of_N (N_of_ascii c)) (list_ascii_of_string s).

Definition NewPoem : Poem := [].

Definition NumStanzas (p : Poem) : Z := Z.of_nat (List.length p).

Definition Stanza_NumLines (s : Stanza) : Z := Z.of_nat (List.length s).

(** [func (p Poem) NumLines() (count int)] *)
Definition NumLines (p : Poem) : Z :=
  fold_left (fun count s => wrap_int (count + Stanza_NumLines s)) p 0.

(** [case "a", "e", "i", "o", "u":] on [string(r)] *)
Definition is_vowel (r : rune) : bool :=
  existsb (Z.eqb r) [97; 101; 105; 111; 117].

Definition count_rune (acc : Z * Z) (r : rune) : Z * Z :=
  let (numVowels, numConsonants) := acc in
  if is_vowel r then (wrap_int (numVowels + 1), numConsonants)
  else (numVowels, wrap_int (numConsonants + 1)).

(** [func (p Poem) Stats() (numVowels, numConsonants int)] *)
Definition Stats (p : Poem) : Z * Z :=
  fold_left
    (fun acc (s : Stanza) =>
       fold_left (fun acc (l : Line) => fold_left count_rune l acc) s acc)
    p (0, 0).

(** [strings.Split(s, sep)] for a separator of one rune: the pieces of
    [s] between the separators; one piece, [s] itself, when there is
    none. *)
Fixpoint strings_Split (sep : rune) (s : list rune) : list (list rune) :=
  match s with
  | [] => [[]]
  | r :: s' =>
      if r =? sep then [] :: strings_Split sep s'
      else match strings_Split sep s' with
           | w :: ws => (r :: w) :: ws
           | [] => [[r]]
           end
  end.

Definition blank : rune := 32.

(** [func (p Poem) NumWords() int] *)
Definition NumWords (p : Poem) : Z :=
  fold_left
    (fun count (s : Stanza) =>
       fold_left
         (fun count (l : Line) =>
            wrap_int (count + Z.of_nat (List.length (strings_Split blank l))))
         s count)
    p 0.

(** What [os.Open] and the scanner give [LoadPoem]: the open fails, or the
    file has these lines and the scan ends with or without an error. *)
Inductive file :=
| OpenFails (err : string)
| Opened (lines : list Line) (scanErr : option string).

(** The [for scan.Scan()] loop of [LoadPoem], from poem [p] and stanza
    [s]. *)
Fixpoint scan_lines (lines : list Line) (p : Poem) (s : Stanza) : Poem * Stanza :=
  match lines with
  | [] => (p, s)
  | l :: lines' =>
      match l with
      | [] => scan_lines lines' (p ++ [s]) []
      | _ :: _ => scan_lines lines' p (s ++ [l])
      end
  end.

(** [func LoadPoem(name string) (Poem, error)]: [inl] is the poem with a
    [nil] error, [inr] the error with a [nil] poem. *)
Definition LoadPoem (f : file) : Poem + string :=
  match f with
  | OpenFails err => inr err
  | Opened lines scanErr =>
      let (p, s) := scan_lines lines [] [] in
      match scanErr with
      | Some err => inr err
      | None => inl (p ++ [s])
      end
  end.


(** The lines of a file that holds the stanzas of [p] with one empty line
    between two stanzas, every line of [p] being one line of the file
    (which asks for [scannable] lines). *)
Fixpoint poem_lines (p : Poem) : list Line :=
  match p with
  | [] => []
  | [s] => s
  | s :: p' => s ++ [] :: poem_lines p'
  end.

(** *** [shuffle] *)

(** [len(s)] *)
Definition Len {A} (s : list A) : Z := Z.of_nat (List.length s).

Fixpoint set_nth {A} (i : nat) (x : A) (s : list A) : list A :=
  match s, i with
  | [], _ => []
  | _ :: s', O => x :: s'
  | y :: s', S i' => y :: set_nth i' x s'
  end.

(** [s[i]], [None] when it panics. *)
Definition at_index {A} (s : list A) (i : Z) : option A :=
  if (0 <=? i) && (i <? Len s) then nth_error s (Z.to_nat i) else None.

(** [func (is intSlice) Swap(i, j int)], the same for [stringSlice]:
    [is[i], is[j] = is[j], is[i]]. *)
Definition Swap {A} (i j : Z) (s : list A) : outcome (list A) :=
  match at_index s j, at_index s i with
  | Some y, Some x => Returns (set_nth (Z.to_nat j) x (set_nth (Z.to_nat i) y s))
  | _, _ => Panics "index out of range"
  end.

(** [rand.Intn(n)]: panics for [n <= 0], otherwise some number in
    [[0, n)]; [raw] is the randomness it is drawn from. *)
Definition rand_Intn (n : Z) (raw : Z) : outcome Z :=
  if n <=? 0 then Panics "invalid argument to Intn" else Returns (raw mod n).

(** The loop of [shuffle] from [i]; [rnd k] is the randomness of the call
    of [rand.Intn] in iteration [k]. *)
Fixpoint shuffle_loop {A} (fuel : nat) (rnd : Z -> Z) (i : Z) (s : list A)
  : outcome (list A) :=
  if i <? Len s then
    match fuel with
    | O => OutOfFuel
    | S fuel' =>
        match rand_Intn (Len s - i) (rnd i) with
        | Returns j =>
            match Swap i j s with
            | Returns s' => shuffle_loop fuel' rnd (wrap_int (i + 1)) s'
            | Panics msg => Panics msg
            | OutOfFuel => OutOfFuel
            end
        | Panics msg => Panics msg
        | OutOfFuel => OutOfFuel
        end
    end
  else Returns s.

(** [func shuffle(s shuffler)], and [Shuffle] of package [shuffler]. *)
Definition shuffle {A} (rnd : Z -> Z) (s : list A) : outcome (list A) :=
  shuffle_loop (List.length s) rnd 0 s.

(** *** [WeightedShuffle]

    The notes give no type with a [Weight] method; the collection is taken
    as a slice of items, [Weight(i)] being the weight of the item at
    index [i]. *)

(** [w.Weight(i)] *)
Definition Weight {A} (weight : A -> Z) (i : Z) (s : list A) : outcome Z :=
  match at_index s i with
  | Some a => Returns (weight a)
  | None => Panics "index out of range"
  end.

(** The first loop: [total += w.Weight(i)] for every index. *)
Definition total_weight {A} (weight : A -> Z) (s : list A) : Z :=
  fold_left (fun total a => wrap_int (total + weight a)) s 0.

(** The loop over [j], from [j] with [cum]; it returns [total] and the
    collection as the [break] or the end of the loop leaves them. *)
Fixpoint weighted_inner {A} (weight : A -> Z) (fuel : nat)
         (pos i j cum total : Z) (s : list A) : outcome (Z * list A) :=
  if j <? Len s then
    match fuel with
    | O => OutOfFuel
    | S fuel' =>
        match Weight weight j s with
        | Returns wj =>
            let cum' := wrap_int (cum + wj) in
            if pos >=? cum' then
              match Swap i j s with
              | Returns s' => Returns (wrap_int (total - wj), s')
              | Panics msg => Panics msg
              | OutOfFuel => OutOfFuel
              end
            else weighted_inner weight fuel' pos i (wrap_int (j + 1)) cum' total s
        | Panics msg => Panics msg
        | OutOfFuel => OutOfFuel
        end
    end
  else Returns (total, s).

(** The second loop over [i]. *)
Fixpoint weighted_outer {A} (weight : A -> Z) (fuel : nat) (rnd : Z -> Z)
         (i total : Z) (s : list A) : outcome (list A) :=
  if i <? Len s then
    match fuel with
    | O => OutOfFuel
    | S fuel' =>
        match rand_Intn total (rnd i) with
        | Returns pos =>
            match weighted_inner weight (List.length s) pos i i 0 total s with
            | Returns (total', s') =>
                weighted_outer weight fuel' rnd (wrap_int (i + 1)) total' s'
            | Panics msg => Panics msg
            | OutOfFuel => OutOfFuel
            end
        | Panics msg => Panics msg
        | OutOfFuel => OutOfFuel
        end
    end
  else Returns s.

(** [func WeightedShuffle(w WeightedShuffleable)] *)
Definition WeightedShuffle {A} (weight : A -> Z) (rnd : Z -> Z) (s : list A)
  : outcome (list A) :=
  weighted_outer weight (List.length s) rnd 0 (total_weight weight s) s.

(** The sum of the weights. *)
Definition weights {A} (weight : A -> Z) (s : list A) : Z :=
  fold_right (fun a t => weight a + t) 0 s.

(** *** [getID] *)

(** The first [n] values [getID] sends on [idChannel], from [id]:
    [for { id++; idChannel <- id }]. *)
Fixpoint getID_sends (n : nat) (id : Z) : list Z :=
  match n with
  | O => []
  | S n' => let id' := wrap_int (id + 1) in id' :: getID_sends n' id'
  end.

(** ** Arithmetic and list facts *)

Lemma len_words : len words = 3.
Proof. reflexivity. Qed.

Lemma wrap_int_small z : - 2 ^ 63 <= z < 2 ^ 63 -> wrap_int z = z.
Proof.
  intros H. unfold wrap_int.
  rewrite Z.mod_small by lia. lia.
Qed.

Lemma word_seq_S n : word_seq (S n) = word_seq n ++ [word_at (Z.of_nat n)].
Proof.
  unfold word_seq. rewrite seq_S, map_app. reflexivity.
Qed.

Lemma word_seq_succ k :
  0 <= k -> word_seq (Z.to_nat (k + 1)) = word_seq (Z.to_nat k) ++ [word_at k].
Proof.
  intros H. replace (Z.to_nat (k + 1)) with (S (Z.to_nat k)) by lia.
  rewrite word_seq_S. now rewrite Z2Nat.id.
Qed.

Lemma word_seq_length n : List.length (word_seq n) = n.
Proof. unfold word_seq. now rewrite length_map, length_seq. Qed.

Lemma index_word_at i k :
  0 <= i < 3 -> i = k mod 3 -> index words i = Some (word_at k).
Proof.
  intros Hi ->. unfold index, word_at. rewrite len_words.
  replace ((0 <=? k mod 3) && (k mod 3 <? 3)) with true
    by (symmetry; apply andb_true_iff; split; [apply Z.leb_le | apply Z.ltb_lt]; lia).
  assert (k mod 3 = 0 \/ k mod 3 = 1 \/ k mod 3 = 2) as [-> | [-> | ->]] by lia;
    reflexivity.
Qed.

Lemma transfers_app a b : transfers (a ++ b) = transfers a ++ transfers b.
Proof. apply flat_map_app. Qed.

Lemma printed_app a b : printed (a ++ b) = printed a ++ printed b.
Proof. apply flat_map_app. Qed.

Lemma stops_app a b : stops (a ++ b) = stops a ++ stops b.
Proof. apply flat_map_app. Qed.

Lemma closes_app a b : closes (a ++ b) = (closes a + closes b)%nat.
Proof. unfold closes. now rewrite filter_app, length_app. Qed.

Lemma closes_one e : closes [e] = if is_close e then 1%nat else 0%nat.
Proof. unfold closes. simpl. now destruct (is_close e). Qed.

Lemma next_index i :
  0 <= i < 3 ->
  (if wrap_int (i + 1) =? len words then 0 else wrap_int (i + 1)) = (i + 1) mod 3.
Proof.
  intros H. rewrite wrap_int_small, len_words by lia.
  destruct (Z.eqb_spec (i + 1) 3) as [E | E].
  - rewrite E. reflexivity.
  - rewrite Z.mod_small; lia.
Qed.

Lemma Inv_init : Inv [] init.
Proof.
  constructor; simpl; try reflexivity; try discriminate.
  - unfold main_ok; simpl; lia.
  - unfold emit_ok; simpl. repeat split; try lia; discriminate.
Qed.

Ltac inv_fields :=
  unfold main_ok, emit_ok, received, lines, quiet in *; simpl in *;
  rewrite ?transfers_app, ?printed_app, ?stops_app, ?closes_app, ?closes_one,
    ?forallb_app;
  simpl.

Ltac got Hs := injection Hs as <- <-.

Ltac field :=
  solve [ assumption | discriminate | reflexivity | lia | congruence
        | intuition (try discriminate; try congruence; try lia)
        | intuition (try discriminate; try congruence;
                     try (Z.div_mod_to_equations; lia))
        | rewrite app_nil_r; assumption
        | rewrite Nat.add_0_r; assumption
        | rewrite andb_true_r; assumption ].

Lemma Inv_step tr s p e s' :
  Inv tr s -> step p s = Some (e, s') -> Inv (tr ++ [e]) s'.
Proof.
  intros [H1 H2 H3 H4 H5 H6 H7 H8 H9 H10 H11 H12] Hs.
  destruct s as [x [epc ei] [mpc mi] [wc] [dc] out].
  unfold step in Hs; unfold main_ok, emit_ok, received, lines in *; simpl in *.
  subst wc.
  destruct x; try discriminate.
  destruct p as [| | []].
  - unfold step_emit in Hs; simpl in Hs.
    destruct epc; try discriminate.
    + unfold emit_enter in Hs; simpl in Hs.
      destruct H4 as (Hr & Hi & Hm).
      rewrite (index_word_at ei _ Hr Hi) in Hs.
      simpl in Hs. got Hs.
      constructor; inv_fields; try field.
      all: destruct mpc; try field.
    + got Hs. destruct H4 as (Hr & H4).
      constructor; inv_fields; rewrite ?(next_index ei Hr); try field.
      all: destruct mpc; try field.
    + destruct H4 as (Hr & ->). subst dc. got Hs.
      constructor; inv_fields; try field.
  - unfold step_main in Hs; simpl in Hs.
    destruct mpc; try discriminate.
    + got Hs. unfold main_test; simpl.
      destruct (Z.leb_spec mi 100); constructor; inv_fields; try field.
      all: destruct epc; try field.
    + destruct H3 as (Hm & ->). got Hs.
      constructor; inv_fields; try field.
      * destruct epc; try field.
      * rewrite word_seq_succ by lia. congruence.
    + got Hs. unfold main_post; simpl. rewrite wrap_int_small by lia.
      constructor; inv_fields; try field.
      destruct epc; try field.
    + subst dc. destruct epc; try discriminate.
      destruct H4 as (_ & H4). discriminate.
    + got Hs. constructor; inv_fields; try field.
  - unfold step_case in Hs; simpl in Hs.
    destruct epc; try discriminate.
    destruct mpc; try discriminate. simpl in Hs. got Hs.
    destruct H4 as (Hr & Hi & -> & Hm).
    constructor; inv_fields; try field.
    rewrite word_seq_succ by lia. congruence.
  - unfold step_case in Hs; simpl in Hs.
    destruct epc; try discriminate.
    subst dc. simpl in Hs.
    destruct mpc; try discriminate. got Hs.
    constructor; inv_fields; try field.
    now rewrite H10.
Qed.

Ltac proj :=
  cbn [st producer consumer wordChannel doneChannel stdout closed
       e_pc e_i m_pc m_i] in *.

Ltac step_cases s p :=
  destruct s as [x [epc ei] [mpc mi] [wc] [dc] out];
  unfold step, step_emit, step_main, step_case, ready, crash, emit_enter; proj;
  destruct x; try discriminate;
  destruct p as [| | []]; destruct epc; destruct mpc; proj;
  try discriminate;
  repeat match goal with
    | |- context [index ?l ?i] => destruct (index l i)
    | |- context [if ?b then _ else _] => destruct b eqn:?
    end; proj; cbn [orb]; try discriminate.

Ltac case_ifs :=
  repeat match goal with
    | |- context [if ?b then _ else _] => destruct b eqn:?
    end.

Lemma iters_nonneg i : 0 <= iters i.
Proof. unfold iters. lia. Qed.

Lemma iters_next i : i <= 100 -> 0 <= iters (wrap_int (i + 1)) < iters i.
Proof.
  intros Hi. unfold iters, wrap_int.
  destruct (Z_le_gt_dec (- 2 ^ 63) (i + 1)) as [Hlo | Hlo].
  - rewrite Z.mod_small by lia. lia.
  - pose proof (Z.mod_pos_bound (i + 1 + 2 ^ 63) (2 ^ 64) ltac:(lia)). lia.
Qed.

Lemma measure_step p s e s' :
  step p s = Some (e, s') -> 0 <= measure s' < measure s.
Proof.
  step_cases s p.
  all: intros H; injection H as <- <-.
  all: unfold measure, set_producer, set_consumer, set_status, close_done,
         print, main_rank, emit_rank, main_test, main_recv, main_post,
         emit_body, emit_send_case, emit_done_case, emit_close; proj.
  all: case_ifs; proj.
  all: pose proof (iters_nonneg mi); pose proof (iters_nonneg (wrap_int (mi + 1))).
  all: try lia.
  all: apply Z.leb_le in Heqb; pose proof (iters_next mi Heqb); lia.
Qed.

(** ** Executions *)

Lemma run_app a :
  forall b s tr1 s1 tr2 s2,
    run a s = Some (tr1, s1) -> run b s1 = Some (tr2, s2) ->
    run (a ++ b) s = Some (tr1 ++ tr2, s2).
Proof.
  induction a as [| p a IH]; simpl; intros b s tr1 s1 tr2 s2 Ha Hb.
  - injection Ha as <- <-. assumption.
  - destruct (step p s) as [[e s'] |]; try discriminate.
    destruct (run a s') as [[tr s''] |] eqn:E; try discriminate.
    injection Ha as <- <-.
    rewrite (IH b s' tr s'' tr2 s2 E Hb). reflexivity.
Qed.

(** A run whose trace is [tr1 ++ tr2] is a run producing [tr1] followed by
    a run producing [tr2]. *)
Lemma run_cut sched :
  forall s tr1 tr2 s',
    run sched s = Some (tr1 ++ tr2, s') ->
    exists a b s1,
      sched = a ++ b /\ run a s = Some (tr1, s1) /\ run b s1 = Some (tr2, s').
Proof.
  induction sched as [| p sched IH]; simpl; intros s tr1 tr2 s' H.
  - injection H as H <-. symmetry in H. apply app_eq_nil in H as [-> ->].
    exists [], [], s. repeat split.
  - destruct (step p s) as [[e s1] |] eqn:Es; try discriminate.
    destruct (run sched s1) as [[tr s2] |] eqn:E; try discriminate.
    injection H as H <-.
    destruct tr1 as [| e1 tr1].
    + exists [], (p :: sched), s. simpl in *. subst tr2.
      rewrite Es, E. repeat split.
    + simpl in H. injection H as <- ->.
      destruct (IH s1 tr1 tr2 s2 E) as (a & b & s3 & -> & Ha & Hb).
      exists (p :: a), b, s3. simpl. rewrite Es, Ha. repeat split. assumption.
Qed.

Lemma Inv_run sched :
  forall tr0 s0 tr s,
    Inv tr0 s0 -> run sched s0 = Some (tr, s) -> Inv (tr0 ++ tr) s.
Proof.
  induction sched as [| p sched IH]; simpl; intros tr0 s0 tr s HI H.
  - injection H as <- <-. now rewrite app_nil_r.
  - destruct (step p s0) as [[e s1] |] eqn:Es; try discriminate.
    destruct (run sched s1) as [[tr1 s2] |] eqn:E; try discriminate.
    injection H as <- <-.
    change (e :: tr1) with ([e] ++ tr1). rewrite app_assoc.
    eapply IH; [eapply Inv_step |]; eassumption.
Qed.

(** Every state the program can reach satisfies the invariant. *)
Lemma Inv_reachable sched tr s : run sched init = Some (tr, s) -> Inv tr s.
Proof. intros H. exact (Inv_run sched [] init tr s Inv_init H). Qed.



(** No infinite execution from any state at all. *)
Lemma step_well_founded :
  well_founded (fun s' s => exists p e, step p s = Some (e, s')).
Proof.
  apply (well_founded_lt_compat _ (fun s => Z.to_nat (measure s))).
  intros s' s (p & e & H). pose proof (measure_step _ _ _ _ H). lia.
Qed.

Lemma halted_spec s : halted s = true <-> forall p, step p s = None.
Proof.
  unfold halted, picks, enabled. simpl. split.
  - intros H p.
    destruct (step RunEmit s) eqn:E1; try discriminate.
    destruct (step RunMain s) eqn:E2; try discriminate.
    destruct (step (Case SendBranch) s) eqn:E3; try discriminate.
    destruct (step (Case DoneBranch) s) eqn:E4; try discriminate.
    destruct p as [| | []]; assumption.
  - intros H. now rewrite !H.
Qed.

(** Deadlock freedom: in a reachable state that is still running, some
    pick can run. *)
Lemma progress tr s : Inv tr s -> st s = Running -> exists p, enabled p s = true.
Proof.
  intros [H1 H2 H3 H4 H5 H6 H7 H8 H9 H10 H11 H12].
  destruct s as [x [epc ei] [mpc mi] [wc] [dc] out].
  unfold main_ok, emit_ok, received in *; proj. intros ->. subst wc.
  unfold enabled, step, step_emit, step_main, step_case, ready, emit_enter; proj.
  destruct epc.
  - exists RunEmit. destruct H4 as (Hr & Hi & _).
    rewrite (index_word_at ei _ Hr Hi). reflexivity.
  - destruct mpc.
    + exists RunMain; reflexivity.
    + exists (Case SendBranch); reflexivity.
    + exists RunMain; reflexivity.
    + exists RunMain; reflexivity.
    + exists (Case DoneBranch). subst dc. reflexivity.
    + exists RunMain; reflexivity.
  - exists RunEmit; reflexivity.
  - exists RunEmit. subst dc. reflexivity.
  - exists RunMain. destruct H4 as (_ & ->). reflexivity.
Qed.

Lemma halted_exited tr s : Inv tr s -> halted s = true -> st s = Exited.
Proof.
  intros HI Hh. destruct (st s) eqn:E; try reflexivity.
  - destruct (progress tr s HI E) as (p & Hp).
    unfold enabled in Hp. rewrite (proj1 (halted_spec s) Hh p) in Hp. discriminate.
  - destruct (inv_status _ _ HI E).
Qed.

(** What the invariant says about a state in which the process exited. *)
Lemma Inv_exited tr s :
  Inv tr s -> st s = Exited ->
  m_pc (consumer s) = MReturn /\ m_i (consumer s) = 101 /\
  transfers tr = word_seq 101 /\ printed tr = word_seq 101 /\
  stdout s = word_seq 101 /\ stops tr = [stop_value] /\
  emit_in_loop (producer s) = false.
Proof.
  intros [H1 H2 H3 H4 H5 H6 H7 H8 H9 H10 H11 H12] E.
  specialize (H2 E).
  unfold main_ok, emit_ok, received, lines, emit_in_loop in *.
  rewrite H2 in *.
  rewrite H3 in *. change (Z.to_nat 101) with 101%nat in *.
  repeat split; try assumption; try congruence.
  destruct H4 as (_ & H4). destruct (e_pc (producer s)); try reflexivity;
    destruct H4 as (_ & H4); try destruct H4 as (_ & H4); congruence.
Qed.

(** ** The cycle of words *)

Lemma cycle_word_seq : cycle 101 words = word_seq 101.
Proof. vm_compute. reflexivity. Qed.

Lemma word_seq_prefix n m : (n <= m)%nat -> firstn n (word_seq m) = word_seq n.
Proof.
  intros H. replace m with (n + (m - n))%nat by lia.
  unfold word_seq. rewrite seq_app, map_app, firstn_app.
  rewrite length_map, length_seq, Nat.sub_diag. simpl. rewrite app_nil_r.
  apply firstn_all2. rewrite length_map, length_seq. lia.
Qed.

Lemma word_seq_nth n k :
  (k < n)%nat -> nth_error (word_seq n) k = Some (word_at (Z.of_nat k)).
Proof.
  intros H. unfold word_seq. rewrite nth_error_map, nth_error_seq.
  apply Nat.ltb_lt in H. rewrite H. reflexivity.
Qed.

Lemma word_at_index k : index words (k mod 3) = Some (word_at k).
Proof.
  apply index_word_at; [apply Z.mod_pos_bound; lia | reflexivity].
Qed.

Lemma word_at_ok k : In (word_at k) words /\ single_word (word_at k) = true.
Proof.
  unfold word_at. rewrite len_words.
  pose proof (Z.mod_pos_bound k 3 ltac:(lia)) as H.
  assert (k mod 3 = 0 \/ k mod 3 = 1 \/ k mod 3 = 2) as [-> | [-> | ->]] by lia;
    simpl; auto.
Qed.

Lemma word_seq_ok n :
  Forall (fun w => In w words /\ single_word w = true) (word_seq n).
Proof.
  unfold word_seq. apply Forall_forall. intros w Hw.
  apply in_map_iff in Hw as (k & <- & _). apply word_at_ok.
Qed.

Lemma Inv_bounds tr s :
  Inv tr s ->
  0 <= received (consumer s) <= 101 /\ 0 <= lines (consumer s) <= 101.
Proof.
  intros HI. pose proof (inv_main _ _ HI) as H.
  unfold main_ok, received, lines in *.
  destruct (m_pc (consumer s)); lia.
Qed.

(** The output grows by exactly the lines of the [Println] events. *)
Lemma step_stdout p s e s' :
  step p s = Some (e, s') -> stdout s' = stdout s ++ printed [e].
Proof.
  step_cases s p.
  all: intros H; injection H as <- <-.
  all: unfold set_producer, set_consumer, set_status, close_done, print; proj.
  all: simpl; rewrite ?app_nil_r; reflexivity.
Qed.

(** ** The two channel operations where both goroutines move *)

Lemma step_Transfer p s w s' :
  step p s = Some (Transfer w, s') ->
  p = Case SendBranch /\ st s = Running /\
  e_pc (producer s) = EOffer w /\ m_pc (consumer s) = MRecv /\
  closed (wordChannel s) = false /\
  producer s' = emit_send_case (producer s) /\
  consumer s' = main_recv w (consumer s).
Proof.
  step_cases s p.
  all: intros H; injection H as -> <-; repeat split.
Qed.

Lemma step_Stop p s b s' :
  step p s = Some (Stop b, s') ->
  p = Case DoneBranch /\ st s = Running /\ b = stop_value /\
  (exists w, e_pc (producer s) = EOffer w) /\ m_pc (consumer s) = MStop /\
  closed (doneChannel s) = false /\
  producer s' = emit_done_case b (producer s) /\
  m_pc (consumer s') = MReturn.
Proof.
  step_cases s p.
  all: intros H; injection H as <- <-; repeat split; eauto.
Qed.

Lemma run_first sched s e tr s' :
  run sched s = Some (e :: tr, s') ->
  exists p sched' s1,
    sched = p :: sched' /\ step p s = Some (e, s1) /\ run sched' s1 = Some (tr, s').
Proof.
  destruct sched as [| p sched]; simpl; intros H; try discriminate.
  destruct (step p s) as [[e1 s1] |] eqn:Es; try discriminate.
  destruct (run sched s1) as [[tr1 s2] |] eqn:E; try discriminate.
  injection H as -> -> ->. exists p, sched, s1. repeat split; assumption.
Qed.

(** ** C1 *)

(** C1. For the cycle ["feed"; "the"; "monkey"] and 101 receives, the
    words [main] receives, and prints, are at every moment a prefix of the
    cycle repeated and truncated to 101 elements, the k-th word being
    [words[k mod 3]]; when the execution is over they are the whole of
    it. *)
Theorem received_words_are_the_cycle sched tr s :
  run sched init = Some (tr, s) ->
  transfers tr = firstn (List.length (transfers tr)) (cycle 101 words) /\
  printed tr = firstn (List.length (printed tr)) (cycle 101 words) /\
  (forall k, 0 <= k < Z.of_nat (List.length (transfers tr)) ->
             nth_error (transfers tr) (Z.to_nat k) = index words (k mod len words)) /\
  (halted s = true ->
   transfers tr = cycle 101 words /\ printed tr = cycle 101 words /\
   List.length (transfers tr) = 101%nat).
Proof.
  intros H. pose proof (Inv_reachable _ _ _ H) as HI.
  destruct (Inv_bounds _ _ HI) as (Hr & Hl).
  pose proof (inv_transfers _ _ HI) as Ht.
  pose proof (inv_printed _ _ HI) as Hp. rewrite (inv_out _ _ HI) in Hp.
  rewrite cycle_word_seq, len_words.
  split; [| split; [| split]].
  - rewrite Ht, word_seq_length. symmetry. apply word_seq_prefix. lia.
  - rewrite Hp, word_seq_length. symmetry. apply word_seq_prefix. lia.
  - intros k Hk. rewrite Ht in *. rewrite word_seq_length in Hk.
    rewrite word_seq_nth by lia. rewrite Z2Nat.id by lia.
    symmetry. apply word_at_index.
  - intros Hh.
    destruct (Inv_exited _ _ HI (halted_exited _ _ HI Hh)) as (_ & _ & E & P & _).
    rewrite E. split; [reflexivity | split; [exact P | apply word_seq_length]].
Qed.

Lemma received_words_witness :
  run sched_close_first init
  = Some (trace_of sched_close_first, final_of sched_close_first) /\
  transfers (trace_of sched_close_first) = cycle 101 words.
Proof.
  assert (H : run sched_close_first init
              = Some (trace_of sched_close_first, final_of sched_close_first))
    by (vm_compute; reflexivity).
  split; [exact H |].
  apply (received_words_are_the_cycle _ _ _ H). vm_compute. reflexivity.
Defined.

(** ** C6 *)

(** C6. The program has no input: [init] is a constant and no step reads
    anything.  Its output changes only by the lines of [Println]; an
    execution that is over has exited normally and has printed exactly 101
    lines, each one of the three words. *)
Theorem console_output sched tr s :
  run sched init = Some (tr, s) ->
  stdout s = printed tr /\
  (forall p e s', step p s = Some (e, s') -> stdout s' = stdout s ++ printed [e]) /\
  Forall (fun w => In w words /\ single_word w = true) (stdout s) /\
  (List.length (stdout s) <= 101)%nat /\
  (halted s = true -> st s = Exited /\ List.length (stdout s) = 101%nat).
Proof.
  intros R. pose proof (Inv_reachable _ _ _ R) as HI.
  destruct (Inv_bounds _ _ HI) as (_ & Hl).
  split; [| split; [| split; [| split]]].
  - symmetry. apply (inv_printed _ _ HI).
  - intros p e s'. apply step_stdout.
  - rewrite (inv_out _ _ HI). apply word_seq_ok.
  - rewrite (inv_out _ _ HI), word_seq_length. lia.
  - intros Hh. pose proof (halted_exited _ _ HI Hh) as Hx.
    destruct (Inv_exited _ _ HI Hx) as (_ & _ & _ & _ & O & _).
    split; [exact Hx | rewrite O; apply word_seq_length].
Qed.

Lemma console_output_witness :
  st (final_of sched_exit_first) = Exited /\
  List.length (stdout (final_of sched_exit_first)) = 101%nat.
Proof.
  apply (console_output sched_exit_first (trace_of sched_exit_first));
    vm_compute; reflexivity.
Defined.

(** ** C7 *)

(** C7. Nothing panics: in every execution the process never crashes and
    no panic is raised, [words[i]] is in bounds, [doneChannel] is closed at
    most once, [wordChannel] is never closed and nothing is received from a
    closed channel, [main] never sends on a closed [doneChannel], and no
    step from a reachable state panics. *)
Theorem no_panic sched tr s :
  run sched init = Some (tr, s) ->
  st s <> Crashed /\
  existsb is_panic tr = false /\
  index words (e_i (producer s)) <> None /\
  (closes tr <= 1)%nat /\
  closed (wordChannel s) = false /\
  existsb is_closed_recv tr = false /\
  (m_pc (consumer s) = MStop -> closed (doneChannel s) = false) /\
  (e_pc (producer s) = EDone -> closed (doneChannel s) = false) /\
  (forall p e s', step p s = Some (e, s') -> is_panic e = false).
Proof.
  intros R. pose proof (Inv_reachable _ _ _ R) as HI.
  pose proof (inv_quiet _ _ HI) as Hq.
  assert (Hall : forall e, In e tr -> is_panic e = false /\ is_closed_recv e = false).
  { intros e He. rewrite forallb_forall in Hq. specialize (Hq e He).
    unfold quiet in Hq. apply negb_true_iff, orb_false_iff in Hq. exact Hq. }
  repeat split.
  - apply (inv_status _ _ HI).
  - apply not_true_is_false. intros Hex.
    apply existsb_exists in Hex as (e & He & Hp).
    destruct (Hall e He). congruence.
  - destruct (inv_emit _ _ HI) as (Hr & _).
    rewrite (index_word_at _ (e_i (producer s)) Hr); [discriminate |].
    symmetry. apply Z.mod_small. exact Hr.
  - rewrite (inv_closes _ _ HI). destruct (closed (doneChannel s)); lia.
  - apply (inv_word _ _ HI).
  - apply not_true_is_false. intros Hex.
    apply existsb_exists in Hex as (e & He & Hp).
    destruct (Hall e He). congruence.
  - intros Hm. rewrite (inv_done _ _ HI).
    destruct (inv_emit _ _ HI) as (_ & He).
    destruct (e_pc (producer s)); try reflexivity. congruence.
  - intros He. rewrite (inv_done _ _ HI), He. reflexivity.
  - intros p e s' Hs.
    pose proof (inv_quiet _ _ (Inv_step _ _ _ _ _ HI Hs)) as Hq'.
    rewrite forallb_app in Hq'. apply andb_true_iff in Hq' as (_ & Hq').
    simpl in Hq'. unfold quiet in Hq'.
    destruct (is_panic e); [discriminate | reflexivity].
Qed.

Lemma no_panic_witness :
  st (final_of sched_close_first) <> Crashed /\
  existsb is_panic (trace_of sched_close_first) = false.
Proof.
  destruct (no_panic sched_close_first (trace_of sched_close_first)
              (final_of sched_close_first)) as (H1 & H2 & _).
  - vm_compute. reflexivity.
  - split; assumption.
Defined.

(** ** C5 *)

(** C5. In every reachable state, so at the start of every iteration of
    [emit]'s loop, [0 <= i < len(words) = 3]; the body of the send case,
    which runs after each send, moves [i] to [(i + 1) mod 3]. *)
Theorem index_wraps sched tr s :
  run sched init = Some (tr, s) ->
  len words = 3 /\
  0 <= e_i (producer s) < len words /\
  (forall s', step RunEmit s = Some (Advance, s') ->
              e_pc (producer s) = ESent /\ e_pc (producer s') = ESelect /\
              e_i (producer s') = (e_i (producer s) + 1) mod len words) /\
  (forall p w s', step p s = Some (Transfer w, s') ->
                  e_pc (producer s') = ESent /\ e_i (producer s') = e_i (producer s)).
Proof.
  intros R. pose proof (Inv_reachable _ _ _ R) as HI.
  destruct (inv_emit _ _ HI) as (Hr & _).
  rewrite len_words.
  split; [reflexivity | split; [exact Hr | split]].
  - intros s' Hs.
    destruct s as [x [epc ei] [mpc mi] [wc] [dc] out]; proj.
    unfold step, step_emit, crash, emit_enter in Hs; proj.
    destruct x; try discriminate.
    destruct epc; try discriminate.
    + destruct (index words ei); discriminate.
    + injection Hs as <-. proj. unfold emit_body; proj.
      rewrite (next_index ei Hr). repeat split.
    + destruct dc; discriminate.
  - intros p w s' Hs. apply step_Transfer in Hs.
    destruct Hs as (_ & _ & _ & _ & _ & -> & _). split; reflexivity.
Qed.

Lemma index_wraps_witness :
  0 <= e_i (producer (final_of (rounds 50))) < len words.
Proof.
  apply (index_wraps (rounds 50) (trace_of (rounds 50)) (final_of (rounds 50))).
  vm_compute. reflexivity.
Defined.

Lemma halted_false s :
  halted s = false -> exists p e s', step p s = Some (e, s').
Proof.
  unfold halted. intros H. apply negb_false_iff, existsb_exists in H.
  destruct H as (p & _ & Hp). unfold enabled in Hp.
  destruct (step p s) as [[e s'] |] eqn:E; try discriminate. eauto.
Qed.

(** From any state the program can be run to its end. *)
Lemma completes n :
  forall s, (Z.to_nat (measure s) <= n)%nat ->
            exists sched tr s', run sched s = Some (tr, s') /\ halted s' = true.
Proof.
  induction n as [| n IH]; intros s Hm.
  - destruct (halted s) eqn:Hh.
    + exists [], [], s. split; [reflexivity | assumption].
    + destruct (halted_false s Hh) as (p & e & s' & Hs).
      pose proof (measure_step _ _ _ _ Hs). lia.
  - destruct (halted s) eqn:Hh.
    + exists [], [], s. split; [reflexivity | assumption].
    + destruct (halted_false s Hh) as (p & e & s' & Hs).
      pose proof (measure_step _ _ _ _ Hs) as Hd.
      destruct (IH s' ltac:(lia)) as (sched & tr & s'' & Hr & Hf).
      exists (p :: sched), (e :: tr), s''. simpl. rewrite Hs, Hr. auto.
Qed.

(** ** C9 *)

(** C9. The printed output does not depend on the scheduling.  Of any two
    executions the shorter output is a prefix of the longer one; both can
    be run on to their end, and an execution that ran to its end has
    printed the 101 lines of the cycle: any two executions that are over
    printed the same 101 lines. *)
Theorem output_is_deterministic sched1 tr1 s1 sched2 tr2 s2 :
  run sched1 init = Some (tr1, s1) ->
  run sched2 init = Some (tr2, s2) ->
  ((List.length (stdout s1) <= List.length (stdout s2))%nat ->
   stdout s1 = firstn (List.length (stdout s1)) (stdout s2)) /\
  (halted s1 = true -> halted s2 = true ->
   stdout s1 = stdout s2 /\ printed tr1 = printed tr2 /\
   List.length (stdout s1) = 101%nat) /\
  (exists c1 t1 f1 c2 t2 f2,
      run (sched1 ++ c1) init = Some (tr1 ++ t1, f1) /\ halted f1 = true /\
      run (sched2 ++ c2) init = Some (tr2 ++ t2, f2) /\ halted f2 = true /\
      stdout f1 = cycle 101 words /\ stdout f2 = cycle 101 words /\
      printed (tr1 ++ t1) = printed (tr2 ++ t2) /\
      List.length (stdout f1) = 101%nat).
Proof.
  intros R1 R2.
  pose proof (Inv_reachable _ _ _ R1) as I1.
  pose proof (Inv_reachable _ _ _ R2) as I2.
  split; [| split].
  - rewrite (inv_out _ _ I1), (inv_out _ _ I2), !word_seq_length.
    intros Hle. symmetry. now apply word_seq_prefix.
  - intros H1 H2.
    destruct (Inv_exited _ _ I1 (halted_exited _ _ I1 H1))
      as (_ & _ & _ & P1 & O1 & _).
    destruct (Inv_exited _ _ I2 (halted_exited _ _ I2 H2))
      as (_ & _ & _ & P2 & O2 & _).
    rewrite O1, O2, P1, P2, word_seq_length. repeat split.
  - destruct (completes _ s1 (Nat.le_refl _)) as (c1 & t1 & f1 & C1 & H1).
    destruct (completes _ s2 (Nat.le_refl _)) as (c2 & t2 & f2 & C2 & H2).
    pose proof (run_app _ _ _ _ _ _ _ R1 C1) as F1.
    pose proof (run_app _ _ _ _ _ _ _ R2 C2) as F2.
    pose proof (Inv_reachable _ _ _ F1) as J1.
    pose proof (Inv_reachable _ _ _ F2) as J2.
    destruct (Inv_exited _ _ J1 (halted_exited _ _ J1 H1))
      as (_ & _ & _ & P1 & O1 & _).
    destruct (Inv_exited _ _ J2 (halted_exited _ _ J2 H2))
      as (_ & _ & _ & P2 & O2 & _).
    exists c1, t1, f1, c2, t2, f2.
    rewrite cycle_word_seq.
    split; [exact F1 | split; [exact H1 | split; [exact F2 | split; [exact H2 |]]]].
    split; [exact O1 | split; [exact O2 | split; [congruence |]]].
    rewrite O1. apply word_seq_length.
Qed.

(** Two executions that differ, one closing [doneChannel] and one not:
    both run to their end and print the same 101 lines. *)
Lemma output_is_deterministic_witness :
  run sched_close_first init
  = Some (trace_of sched_close_first, final_of sched_close_first) /\
  run sched_exit_first init
  = Some (trace_of sched_exit_first, final_of sched_exit_first) /\
  halted (final_of sched_close_first) = true /\
  halted (final_of sched_exit_first) = true /\
  stdout (final_of sched_close_first) = stdout (final_of sched_exit_first) /\
  List.length (stdout (final_of sched_close_first)) = 101%nat.
Proof.
  assert (R1 : run sched_close_first init
               = Some (trace_of sched_close_first, final_of sched_close_first))
    by (vm_compute; reflexivity).
  assert (R2 : run sched_exit_first init
               = Some (trace_of sched_exit_first, final_of sched_exit_first))
    by (vm_compute; reflexivity).
  assert (H1 : halted (final_of sched_close_first) = true)
    by (vm_compute; reflexivity).
  assert (H2 : halted (final_of sched_exit_first) = true)
    by (vm_compute; reflexivity).
  destruct (output_is_deterministic _ _ _ _ _ _ R1 R2) as (_ & H & _).
  destruct (H H1 H2) as (E & _ & L).
  split; [exact R1 | split; [exact R2 | split; [exact H1 | split; [exact H2 |]]]].
  split; [exact E | exact L].
Defined.

(** ** C4 *)

(** C4. [main] receives at most 101 words and sends at most one stop
    signal; a stop signal in the trace carries [true], comes after exactly
    101 receives and no earlier stop signal, and is followed by no receive
    and no second stop signal; an execution that is over has 101 receives
    and one stop signal. *)
Theorem stop_after_all_receives sched tr s :
  run sched init = Some (tr, s) ->
  (List.length (transfers tr) <= 101)%nat /\
  (List.length (stops tr) <= 1)%nat /\
  (forall tr1 b tr2,
      tr = tr1 ++ Stop b :: tr2 ->
      b = true /\ List.length (transfers tr1) = 101%nat /\ stops tr1 = [] /\
      transfers tr2 = [] /\ stops tr2 = []) /\
  (halted s = true ->
   List.length (transfers tr) = 101%nat /\ stops tr = [true]).
Proof.
  intros R. pose proof (Inv_reachable _ _ _ R) as HI.
  destruct (Inv_bounds _ _ HI) as (Hr & _).
  assert (Hstops : (List.length (stops tr) <= 1)%nat).
  { rewrite (inv_stops _ _ HI). destruct (m_pc (consumer s)); simpl; lia. }
  split; [| split; [| split]].
  - rewrite (inv_transfers _ _ HI), word_seq_length. lia.
  - exact Hstops.
  - intros tr1 b tr2 ->.
    destruct (run_cut _ _ _ _ _ R) as (a & c & s1 & _ & Ra & Rc).
    destruct (run_first _ _ _ _ _ Rc) as (p & c' & s2 & _ & Hs & _).
    apply step_Stop in Hs. destruct Hs as (_ & _ & Hb & _ & Hm & _).
    pose proof (Inv_reachable _ _ _ Ra) as I1.
    pose proof (inv_main _ _ I1) as M1. unfold main_ok in M1. rewrite Hm in M1.
    pose proof (f_equal (@List.length string) (inv_transfers _ _ HI)) as L.
    pose proof (f_equal (@List.length string) (inv_transfers _ _ I1)) as L1.
    rewrite transfers_app in L. simpl in L.
    rewrite length_app, word_seq_length in L. rewrite word_seq_length in L1.
    unfold received in L1. rewrite Hm in L1.
    rewrite stops_app in Hstops. simpl in Hstops.
    rewrite length_app in Hstops. simpl in Hstops.
    repeat split.
    + exact Hb.
    + lia.
    + apply length_zero_iff_nil. lia.
    + apply length_zero_iff_nil. lia.
    + apply length_zero_iff_nil. lia.
  - intros Hh.
    destruct (Inv_exited _ _ HI (halted_exited _ _ HI Hh))
      as (_ & _ & E & _ & _ & S & _).
    split; [rewrite E; apply word_seq_length | exact S].
Qed.

Lemma stop_after_all_receives_witness :
  List.length (transfers (trace_of sched_close_first)) = 101%nat /\
  stops (trace_of sched_close_first) = [true].
Proof.
  apply (stop_after_all_receives sched_close_first (trace_of sched_close_first)
           (final_of sched_close_first)); vm_compute; reflexivity.
Defined.

(** ** C2 *)




(** ** C3 *)




(** ** C8 *)

(** In a reachable state at most one case of the [select] is ready: what
    [main] is doing decides which case [emit] takes. *)
Lemma select_never_both_ready sched tr s :
  run sched init = Some (tr, s) ->
  ready SendBranch s && ready DoneBranch s = false.
Proof.
  intros R. pose proof (Inv_reachable _ _ _ R) as HI.
  pose proof (inv_word _ _ HI) as Hw. pose proof (inv_done _ _ HI) as Hd.
  destruct (inv_emit _ _ HI) as (_ & He).
  unfold ready. rewrite Hw, Hd.
  destruct (m_pc (consumer s)) eqn:Em; destruct (e_pc (producer s));
    try reflexivity; congruence.
Qed.

(** C8.  In every execution a word passes on [wordChannel] in one step of
    both goroutines: before it [emit] is inside its [select] offering that
    word and [main] is waiting in its receive, neither of them can take a
    step of its own, and after it both have moved on.  In a running state
    the send case can be taken exactly when [main] waits in its receive,
    the done case exactly when [main] waits in its send.  The [select]
    itself, whatever is at the other end of the channels, has no order
    between its cases: a case can be taken exactly when its channel
    operation can proceed, so with a receiver waiting on [wordChannel] and
    a sender waiting on [doneChannel] it may both pass the word and
    receive the stop signal.  The program is the instance of that rule
    with [main] at the other end. *)
Theorem word_rendezvous_and_select :
  (forall sched tr s tr1 w tr2,
      run sched init = Some (tr, s) -> tr = tr1 ++ Transfer w :: tr2 ->
      exists sched1 s1 s1',
        run sched1 init = Some (tr1, s1) /\
        step (Case SendBranch) s1 = Some (Transfer w, s1') /\
        e_pc (producer s1) = EOffer w /\ m_pc (consumer s1) = MRecv /\
        step RunEmit s1 = None /\ step RunMain s1 = None /\
        e_pc (producer s1') = ESent /\ m_pc (consumer s1') = MPrint w) /\
  (forall sched tr s,
      run sched init = Some (tr, s) -> st s = Running ->
      ((exists w, e_pc (producer s) = EOffer w) -> step RunEmit s = None) /\
      (m_pc (consumer s) = MRecv -> step RunMain s = None) /\
      (enabled (Case SendBranch) s = true <->
       (exists w, e_pc (producer s) = EOffer w) /\ m_pc (consumer s) = MRecv) /\
      (enabled (Case DoneBranch) s = true <->
       (exists w, e_pc (producer s) = EOffer w) /\ m_pc (consumer s) = MStop)) /\
  (forall e w o,
      e_pc e = EOffer w ->
      emit_select SendBranch o make make e
      = (if word_receiver o then Some (Transfer w, mkEmit ESent (e_i e)) else None) /\
      emit_select DoneBranch o make make e
      = match stop_sender o with
        | Some v => Some (Stop v, mkEmit EDone (e_i e))
        | None => None
        end) /\
  (forall e w v,
      e_pc e = EOffer w ->
      emit_select SendBranch (mkOffers true (Some v)) make make e
      = Some (Transfer w, mkEmit ESent (e_i e)) /\
      emit_select DoneBranch (mkOffers true (Some v)) make make e
      = Some (Stop v, mkEmit EDone (e_i e))) /\
  (forall b s,
      st s = Running ->
      step (Case b) s
      = match emit_select b (main_offers (consumer s))
                (wordChannel s) (doneChannel s) (producer s) with
        | Some (ev, e') => Some (ev, deliver ev e' s)
        | None => None
        end).
Proof.
  assert (Hopen : forall e w o,
             e_pc e = EOffer w ->
             emit_select SendBranch o make make e
             = (if word_receiver o then Some (Transfer w, mkEmit ESent (e_i e))
                else None) /\
             emit_select DoneBranch o make make e
             = match stop_sender o with
               | Some v => Some (Stop v, mkEmit EDone (e_i e))
               | None => None
               end).
  { intros e w o He. unfold emit_select. rewrite He. cbn [make closed].
    split; reflexivity. }
  split; [| split; [| split; [| split]]].
  - intros sched tr s tr1 w tr2 R ->.
    destruct (run_cut _ _ _ _ _ R) as (a & c & s1 & _ & Ra & Rc).
    destruct (run_first _ _ _ _ _ Rc) as (p & c' & s2 & _ & Hs & _).
    pose proof Hs as Hs'. apply step_Transfer in Hs'.
    destruct Hs' as (-> & Hr & He & Hm & Hc & He' & Hm').
    exists a, s1, s2.
    split; [exact Ra | split; [exact Hs |]].
    split; [exact He | split; [exact Hm |]].
    split; [| split; [| split]].
    + unfold step, step_emit. now rewrite Hr, He.
    + unfold step, step_main. now rewrite Hr, Hm, Hc.
    + now rewrite He'.
    + now rewrite Hm'.
  - intros sched tr s R Hr. pose proof (Inv_reachable _ _ _ R) as HI.
    pose proof (inv_word _ _ HI) as Hw. pose proof (inv_done _ _ HI) as Hd.
    destruct (inv_emit _ _ HI) as (_ & He).
    split; [| split; [| split]].
    + intros (w & Ew). unfold step, step_emit. now rewrite Hr, Ew.
    + intros Em. unfold step, step_main. now rewrite Hr, Em, Hw.
    + unfold enabled, step, step_case, ready. rewrite Hr, Hw.
      destruct (e_pc (producer s)) eqn:Ee; destruct (m_pc (consumer s)) eqn:Em;
        cbn [orb]; split;
        try discriminate; try (intros ((w' & Hc) & Hm); discriminate);
        try (intros (_ & Hm); discriminate);
        intros _; split; eauto.
    + unfold enabled, step, step_case, ready. rewrite Hr, Hd.
      destruct (e_pc (producer s)) eqn:Ee; destruct (m_pc (consumer s)) eqn:Em;
        cbn [orb]; split;
        try discriminate; try (intros ((w' & Hc) & Hm); discriminate);
        try (intros (_ & Hm); discriminate);
        intros _; split; eauto.
  - exact Hopen.
  - intros e w v He. destruct (Hopen e w (mkOffers true (Some v)) He) as (H1 & H2).
    split; assumption.
  - intros b s Hr. unfold step, step_case, emit_select, main_offers, ready, crash.
    rewrite Hr. cbn [word_receiver stop_sender].
    destruct (e_pc (producer s)); try reflexivity.
    destruct b.
    + destruct (closed (wordChannel s)); cbn [orb]; [reflexivity |].
      destruct (m_pc (consumer s)); reflexivity.
    + destruct (closed (doneChannel s)); cbn [orb]; [reflexivity |].
      destruct (m_pc (consumer s)); reflexivity.
Qed.

(** The first word of an execution passes in a joint step; and a
    [select] that finds a receiver on [wordChannel] and a sender of [true]
    on [doneChannel] may take either case. *)
Lemma word_rendezvous_and_select_witness :
  (exists sched1 s1 s1',
      run sched1 init = Some ([Eval; Test true], s1) /\
      step (Case SendBranch) s1 = Some (Transfer "feed", s1') /\
      step RunEmit s1 = None /\ step RunMain s1 = None) /\
  emit_select SendBranch (mkOffers true (Some true)) make make
              (mkEmit (EOffer "the") 1)
  = Some (Transfer "the", mkEmit ESent 1) /\
  emit_select DoneBranch (mkOffers true (Some true)) make make
              (mkEmit (EOffer "the") 1)
  = Some (Stop true, mkEmit EDone 1).
Proof.
  destruct word_rendezvous_and_select as (H1 & _ & _ & H4 & _).
  split.
  - destruct (H1 [RunEmit; RunMain; Case SendBranch]
                (trace_of [RunEmit; RunMain; Case SendBranch])
                (final_of [RunEmit; RunMain; Case SendBranch])
                [Eval; Test true] "feed"%string [])
      as (sched1 & s1 & s1' & R & S & _ & _ & E & M & _).
    + vm_compute. reflexivity.
    + vm_compute. reflexivity.
    + exists sched1, s1, s1'. repeat split; assumption.
  - apply (H4 (mkEmit (EOffer "the") 1) "the"%string true). reflexivity.
Defined.

(** ** C10 *)

Lemma emit_step_loop a e e' :
  emit_step a e = Some e' ->
  emit_in_loop e = true -> emit_in_loop e' = false -> is_recv_done a = true.
Proof.
  destruct e as [pc i]. unfold emit_step, emit_in_loop, emit_enter. cbn [e_pc e_i].
  destruct a; destruct pc; try discriminate.
  - destruct (index words i); try discriminate.
    intros H; injection H as <-. discriminate.
  - destruct (String.eqb w w0); try discriminate.
    intros H; injection H as <-. discriminate.
  - intros H; injection H as <-. unfold emit_body. discriminate.
  - reflexivity.
Qed.

Lemma emit_run_loop l :
  forall e e',
    emit_run l e = Some e' ->
    emit_in_loop e = true -> emit_in_loop e' = false ->
    existsb is_recv_done l = true.
Proof.
  induction l as [| a l IH]; simpl; intros e e' H Hin Hout.
  - injection H as <-. congruence.
  - destruct (emit_step a e) as [e1 |] eqn:Es; try discriminate.
    destruct (is_recv_done a) eqn:Ea; [reflexivity | simpl].
    destruct (emit_in_loop e1) eqn:E1.
    + eapply IH; eassumption.
    + rewrite (emit_step_loop _ _ _ Es Hin E1) in Ea. discriminate.
Qed.

(** In the loop the index stays within [words]. *)
Lemma emit_step_index a e e' :
  emit_step a e = Some e' -> 0 <= e_i e < 3 -> 0 <= e_i e' < 3.
Proof.
  destruct e as [pc i]. unfold emit_step, emit_enter. cbn [e_pc e_i].
  destruct a; destruct pc; try discriminate.
  - destruct (index words i); try discriminate.
    intros H; injection H as <-. auto.
  - destruct (String.eqb w w0); try discriminate.
    intros H; injection H as <-. auto.
  - intros H; injection H as <-. intros Hr. unfold emit_body. cbn [e_i].
    rewrite (next_index i Hr). apply Z.mod_pos_bound. lia.
  - intros H; injection H as <-. auto.
  - intros H; injection H as <-. auto.
Qed.

Lemma emit_run_index l :
  forall e e', emit_run l e = Some e' -> 0 <= e_i e < 3 -> 0 <= e_i e' < 3.
Proof.
  induction l as [| a l IH]; simpl; intros e e' H Hr.
  - injection H as <-. assumption.
  - destruct (emit_step a e) as [e1 |] eqn:Es; try discriminate.
    eapply IH; [eassumption | eapply emit_step_index; eassumption].
Qed.

(** While in its loop with the index in range, [emit] has a next step
    that is not the done case (for the send it needs a receiver). *)
Lemma emit_loop_goes_on e :
  emit_in_loop e = true -> 0 <= e_i e < 3 ->
  exists a e', is_recv_done a = false /\ emit_step a e = Some e' /\
               emit_in_loop e' = true.
Proof.
  destruct e as [pc i]. unfold emit_in_loop, emit_step, emit_enter. cbn [e_pc e_i].
  intros Hin Hr. destruct pc; try discriminate.
  - exists AEnter. rewrite (index_word_at i i Hr) by (symmetry; now apply Z.mod_small).
    eexists. repeat split.
  - exists (ASend w). rewrite String.eqb_refl. eexists. repeat split.
  - exists ABody. eexists. repeat split.
Qed.

(** Each step of the program is, for [emit], no step or one step of the
    process [emit]; it is the done case exactly for the events of the done
    case. *)
Lemma step_producer p s e s' :
  step p s = Some (e, s') ->
  (producer s' = producer s /\ is_done_branch e = false) \/
  (exists a, emit_step a (producer s) = Some (producer s') /\
             is_recv_done a = is_done_branch e).
Proof.
  destruct s as [x [epc ei] [mpc mi] [wc] [dc] out].
  unfold step, step_emit, step_main, step_case, ready, crash; proj.
  destruct x; try discriminate.
  destruct p as [| | []]; destruct epc; proj; try discriminate.
  - unfold emit_enter; proj.
    destruct (index words ei) as [w |] eqn:Ei; proj.
    + intros H; injection H as <- <-. right. exists AEnter.
      unfold emit_step, emit_enter; proj. rewrite Ei. split; reflexivity.
    + intros H; injection H as <- <-. left. split; reflexivity.
  - intros H; injection H as <- <-. right. exists ABody. split; reflexivity.
  - destruct dc; intros H; injection H as <- <-.
    + left. split; reflexivity.
    + right. exists AClose. split; reflexivity.
  - destruct mpc; proj; try discriminate;
      try (destruct wc; try discriminate);
      try (destruct dc; try discriminate);
      intros H; injection H as <- <-; left; split; reflexivity.
  - destruct mpc; proj; try discriminate;
      try (destruct wc; try discriminate);
      try (destruct dc; try discriminate);
      intros H; injection H as <- <-; left; split; reflexivity.
  - destruct mpc; proj; try discriminate;
      try (destruct wc; try discriminate);
      try (destruct dc; try discriminate);
      intros H; injection H as <- <-; left; split; reflexivity.
  - destruct mpc; proj; try discriminate;
      try (destruct wc; try discriminate);
      try (destruct dc; try discriminate);
      intros H; injection H as <- <-; left; split; reflexivity.
  - destruct mpc; proj; try discriminate;
      try (destruct wc; try discriminate);
      try (destruct dc; try discriminate);
      intros H; injection H as <- <-; left; split; reflexivity.
  - destruct wc; cbn [orb].
    + intros H; injection H as <- <-. left. split; reflexivity.
    + destruct mpc; try discriminate.
      intros H; injection H as <- <-. right. exists (ASend w).
      unfold emit_step; proj. rewrite String.eqb_refl. split; reflexivity.
  - destruct dc; cbn [orb].
    + intros H; injection H as <- <-. right. exists (ARecvDone false).
      split; reflexivity.
    + destruct mpc; try discriminate.
      intros H; injection H as <- <-. right. exists (ARecvDone stop_value).
      split; reflexivity.
Qed.

Lemma run_producer sched :
  forall s tr s',
    run sched s = Some (tr, s') ->
    emit_in_loop (producer s) = true -> emit_in_loop (producer s') = false ->
    existsb is_done_branch tr = true.
Proof.
  induction sched as [| p sched IH]; simpl; intros s tr s' H Hin Hout.
  - injection H as _ <-. congruence.
  - destruct (step p s) as [[e s1] |] eqn:Es; try discriminate.
    destruct (run sched s1) as [[tr1 s2] |] eqn:E; try discriminate.
    injection H as <- <-. simpl.
    destruct (is_done_branch e) eqn:Ee; [reflexivity | simpl].
    destruct (step_producer _ _ _ _ Es) as [(Hp & _) | (a & Ha & Hd)].
    + rewrite <- Hp in Hin. eapply IH; eassumption.
    + destruct (emit_in_loop (producer s1)) eqn:E1.
      * eapply IH; eassumption.
      * rewrite (emit_step_loop _ _ _ Ha Hin E1) in Hd. congruence.
Qed.

(** C10. [emit] leaves its loop only through the done case of its
    [select], as a process on its own and inside the program; as long as
    the done case was not taken it is in its loop and has a further step
    that is not the done case, so it never ends by itself (any number of
    rounds can be run); the value received in the done case has no effect
    on what [emit] does. *)
Theorem producer_stops_only_on_done :
  (forall l e e',
      emit_run l e = Some e' ->
      emit_in_loop e = true -> emit_in_loop e' = false ->
      existsb is_recv_done l = true) /\
  (forall sched s tr s',
      run sched s = Some (tr, s') ->
      emit_in_loop (producer s) = true -> emit_in_loop (producer s') = false ->
      existsb is_done_branch tr = true) /\
  (forall l e',
      emit_run l emit_init = Some e' -> existsb is_recv_done l = false ->
      emit_in_loop e' = true /\
      exists a e'', is_recv_done a = false /\ emit_step a e' = Some e'' /\
                    emit_in_loop e'' = true) /\
  (forall n, exists e',
      emit_run (emit_rounds n 0) emit_init = Some e' /\
      emit_in_loop e' = true /\
      List.length (emit_rounds n 0) = (3 * n)%nat) /\
  (forall b b' e,
      emit_step (ARecvDone b) e = emit_step (ARecvDone b') e /\
      emit_done_case b e = emit_done_case b' e).
Proof.
  split; [| split; [| split; [| split]]].
  - intros l e e'. apply emit_run_loop.
  - intros sched s tr s'. apply run_producer.
  - intros l e' R Hn.
    assert (Hin : emit_in_loop e' = true).
    { destruct (emit_in_loop e') eqn:E; [reflexivity |].
      rewrite (emit_run_loop _ _ _ R eq_refl E) in Hn. discriminate. }
    split; [exact Hin |].
    apply emit_loop_goes_on; [exact Hin |].
    apply (emit_run_index _ _ _ R). simpl. lia.
  - assert (G : forall n i, 0 <= i < 3 ->
                 emit_run (emit_rounds n i) (mkEmit ESelect i)
                 = Some (mkEmit ESelect ((i + Z.of_nat n) mod 3)) /\
                 List.length (emit_rounds n i) = (3 * n)%nat).
    { induction n as [| n IH]; intros i Hi.
      - simpl emit_rounds. simpl emit_run. rewrite Z.add_0_r.
        rewrite Z.mod_small by lia. split; reflexivity.
      - cbn [emit_rounds]. unfold emit_round.
        rewrite (index_word_at i i Hi) by (symmetry; now apply Z.mod_small).
        rewrite len_words.
        destruct (IH ((i + 1) mod 3) ltac:(apply Z.mod_pos_bound; lia)) as (R & L).
        split.
        + cbn [app emit_run]. unfold emit_step at 1. cbn [e_pc].
          unfold emit_enter. cbn [e_i].
          rewrite (index_word_at i i Hi) by (symmetry; now apply Z.mod_small).
          unfold emit_step at 1. cbn [e_pc]. rewrite String.eqb_refl.
          unfold emit_step at 1, emit_send_case. cbn [e_pc e_i].
          unfold emit_body. cbn [e_i]. rewrite (next_index i Hi).
          rewrite R. do 2 f_equal.
          rewrite Zplus_mod_idemp_l. f_equal. lia.
        + rewrite length_app, L. simpl. lia. }
    intros n. destruct (G n 0 ltac:(lia)) as (R & L).
    eexists. split; [exact R |]. split; [reflexivity | exact L].
  - intros b b' e. split; [| reflexivity].
    unfold emit_step. destruct (e_pc e); reflexivity.
Qed.

Lemma producer_stops_only_on_done_witness :
  existsb is_done_branch (trace_of sched_close_first) = true.
Proof.
  destruct producer_stops_only_on_done as (_ & H & _).
  apply (H sched_close_first init (trace_of sched_close_first)
           (final_of sched_close_first)); vm_compute; reflexivity.
Defined.

(** ** Further properties of [main.go] *)


Lemma step_Close p s s' :
  step p s = Some (Close, s') ->
  p = RunEmit /\ e_pc (producer s) = EDone /\ closed (doneChannel s) = false /\
  e_pc (producer s') = EReturned /\ closed (doneChannel s') = true.
Proof.
  step_cases s p.
  all: intros H; injection H as <-; repeat split.
Qed.




(** [main]'s counter stays within 0..101, so its [i++] never overflows;
    it is the number of lines printed, except between a [Println] and the
    [i++] after it; and a word is printed before the next one is received:
    the receives are never more than one ahead of the prints. *)
Theorem counter_and_prints sched tr s :
  run sched init = Some (tr, s) ->
  0 <= m_i (consumer s) <= 101 /\
  (m_pc (consumer s) = MPost ->
   wrap_int (m_i (consumer s) + 1) = m_i (consumer s) + 1) /\
  Z.of_nat (List.length (printed tr)) =
    (if match m_pc (consumer s) with MPost => true | _ => false end
     then m_i (consumer s) + 1 else m_i (consumer s)) /\
  (List.length (printed tr) <= List.length (transfers tr)
   <= List.length (printed tr) + 1)%nat.
Proof.
  intros R. pose proof (Inv_reachable _ _ _ R) as HI.
  pose proof (inv_main _ _ HI) as M.
  pose proof (f_equal (@List.length string) (inv_transfers _ _ HI)) as T.
  pose proof (f_equal (@List.length string) (inv_printed _ _ HI)) as P.
  rewrite (inv_out _ _ HI) in P. rewrite word_seq_length in T, P.
  unfold main_ok, received, lines in *.
  destruct (m_pc (consumer s)) eqn:E; repeat split; try discriminate; try lia.
  intros _. apply wrap_int_small. lia.
Qed.

Lemma counter_and_prints_witness :
  0 <= m_i (consumer (final_of (rounds 7))) <= 101.
Proof.
  apply (counter_and_prints (rounds 7) (trace_of (rounds 7)) (final_of (rounds 7))).
  vm_compute. reflexivity.
Defined.

(** [doneChannel] is closed only by [emit], only after the stop signal
    and all 101 words went through, and nothing is closed before or after
    that. *)
Theorem close_after_stop sched tr s tr1 tr2 :
  run sched init = Some (tr, s) ->
  tr = tr1 ++ Close :: tr2 ->
  stops tr1 = [true] /\ List.length (transfers tr1) = 101%nat /\
  closes tr1 = 0%nat /\ closes tr2 = 0%nat /\ transfers tr2 = [] /\
  e_pc (producer s) = EReturned.
Proof.
  intros R ->. pose proof (Inv_reachable _ _ _ R) as HI.
  destruct (run_cut _ _ _ _ _ R) as (a & c & s1 & _ & Ra & Rc).
  destruct (run_first _ _ _ _ _ Rc) as (p & c' & s2 & _ & Hs & _).
  apply step_Close in Hs. destruct Hs as (_ & He & Hc & _).
  pose proof (Inv_reachable _ _ _ Ra) as I1.
  destruct (inv_emit _ _ I1) as (_ & Hm). rewrite He in Hm.
  pose proof (inv_main _ _ I1) as M1. unfold main_ok in M1. rewrite Hm in M1.
  pose proof (inv_stops _ _ I1) as S1. rewrite Hm in S1.
  pose proof (f_equal (@List.length string) (inv_transfers _ _ I1)) as L1.
  rewrite word_seq_length in L1. unfold received in L1. rewrite Hm, M1 in L1.
  pose proof (inv_closes _ _ I1) as C1. rewrite Hc in C1.
  pose proof (inv_closes _ _ HI) as C. rewrite closes_app in C.
  change (Close :: tr2) with ([Close] ++ tr2) in C.
  rewrite closes_app, closes_one, C1 in C. simpl in C.
  pose proof (inv_done _ _ HI) as D.
  destruct (closed (doneChannel s)) eqn:Ec; try lia.
  pose proof (f_equal (@List.length string) (inv_transfers _ _ HI)) as L.
  rewrite transfers_app, length_app, word_seq_length in L. simpl in L.
  destruct (Inv_bounds _ _ HI) as (B & _).
  repeat split; try assumption; try lia.
  - apply length_zero_iff_nil. lia.
  - destruct (e_pc (producer s)); try discriminate. reflexivity.
Qed.

Lemma close_after_stop_witness :
  stops (firstn 610 (trace_of sched_close_first)) = [true] /\
  e_pc (producer (final_of sched_close_first)) = EReturned.
Proof.
  destruct (close_after_stop sched_close_first (trace_of sched_close_first)
              (final_of sched_close_first)
              (firstn 609 (trace_of sched_close_first)) [Exit])
    as (H1 & _ & _ & _ & _ & H2).
  - vm_compute. reflexivity.
  - vm_compute. reflexivity.
  - split; [vm_compute; reflexivity | exact H2].
Defined.

Lemma select_never_both_ready_witness :
  ready SendBranch (final_of [RunEmit; RunMain]) = true /\
  ready DoneBranch (final_of [RunEmit; RunMain]) = false.
Proof.
  pose proof (select_never_both_ready [RunEmit; RunMain]
                (trace_of [RunEmit; RunMain]) (final_of [RunEmit; RunMain])
                ltac:(vm_compute; reflexivity)) as H.
  assert (H1 : ready SendBranch (final_of [RunEmit; RunMain]) = true)
    by (vm_compute; reflexivity).
  rewrite H1 in H. simpl in H. split; [reflexivity | exact H].
Defined.

(** ** The program of the notes *)

Ltac nproj :=
  cbn [n_st n_producer n_consumer n_wordChannel n_doneChannel n_stdout closed
       ne_pc ne_i nm_pc nm_i] in *.

Ltac notes_cases s p :=
  destruct s as [x [epc ei] [mpc mi] [wc] [dc] out];
  unfold notes_step, notes_step_emit, notes_step_main, notes_step_case,
    notes_step_meet, notes_ready, n_crash; nproj;
  destruct x; try discriminate;
  destruct p as [| | [] |]; destruct epc; destruct mpc; nproj;
  try discriminate;
  repeat match goal with
    | |- context [index ?l ?i] => destruct (index l i) eqn:?
    | |- context [if ?b then _ else _] => destruct b eqn:?
    end; nproj; cbn [orb]; try discriminate.

Lemma notes_panics_app a b : notes_panics (a ++ b) = notes_panics a ++ notes_panics b.
Proof. apply flat_map_app. Qed.

Lemma notes_acks_app a b : notes_acks (a ++ b) = notes_acks a ++ notes_acks b.
Proof. apply flat_map_app. Qed.

Lemma notes_Inv_init : notes_Inv [] notes_init.
Proof.
  constructor; simpl; try reflexivity; try discriminate; auto.
  - split; [discriminate | congruence].
  - unfold notes_main_ok; simpl; lia.
  - unfold notes_emit_ok; simpl. repeat split; try lia; discriminate.
Qed.

Lemma notes_body_index i : 0 <= i < 3 -> notes_body i = (i + 1) mod 3.
Proof. apply next_index. Qed.

Lemma word_at_mod k : word_at (k mod 3) = word_at k.
Proof. unfold word_at. rewrite len_words, Z.mod_mod by lia. reflexivity. Qed.

Ltac nfield :=
  solve [ assumption | discriminate | reflexivity | lia | congruence
        | intuition (try discriminate; try congruence; try lia)
        | intuition (try discriminate; try congruence;
                     try (Z.div_mod_to_equations; lia))
        | split; intros; congruence
        | left; reflexivity
        | right; split; reflexivity ].

Lemma notes_Inv_step tr s p e s' :
  notes_Inv tr s -> notes_step p s = Some (e, s') -> notes_Inv (tr ++ [e]) s'.
Proof.
  intros [H1 H2 H3 H4 H5 H6 H7 H8 H9].
  revert H1 H2 H3 H4 H5 H6 H7 H8.
  unfold notes_main_ok, notes_emit_ok, notes_received, notes_lines.
  notes_cases s p.
  all: intros H1 H2 H3 H4 H5 H6 H7 H8 H; injection H as <- <-.
  all: try congruence.
  all: try (destruct H5 as (? & ?); intuition congruence).
  all: try match goal with
         | Hr : 0 <= ?i < 3 /\ _, Ho : index words ?i = None |- _ =>
             exfalso; destruct Hr as (Hr & _);
             rewrite (index_word_at i i Hr) in Ho
               by (symmetry; now apply Z.mod_small);
             discriminate
         end.
  all: assert (Hp : notes_panics tr = [])
    by (destruct (notes_panics tr);
        [reflexivity
        | exfalso; assert (Running = Crashed) by (apply H2; discriminate);
          discriminate]).
  all: try match goal with
         | Hr : 0 <= ?i < 3 /\ _ |- context [notes_body ?i] =>
             rewrite (notes_body_index i (proj1 Hr))
         end.
  all: try rewrite wrap_int_small by lia.
  all: try match goal with
         | Hr : 0 <= ?i < 3 /\ _, Ho : index words ?i = Some ?w |- _ =>
             let Hw := fresh "Hw" in
             assert (Hw : w = word_at i)
               by (destruct Hr as (Hr & _);
                   rewrite (index_word_at i i Hr) in Ho
                     by (symmetry; now apply Z.mod_small);
                   congruence)
         end.
  all: constructor;
    unfold notes_main_ok, notes_emit_ok, notes_received, notes_lines,
      n_set_producer, n_set_consumer, n_set_status, n_close_done, n_print;
    nproj; rewrite ?notes_panics_app, ?notes_acks_app, ?Hp, ?H9; simpl;
    try nfield.
  all: try (rewrite word_seq_succ by lia; destruct H4 as (? & ->); congruence).
  all: destruct H5 as (Hr & Hi & Hm1 & Hm2); subst s;
    split; [exact Hr | split; [exact Hi | split; [| split; assumption]]];
    rewrite Hi; apply word_at_mod.
Qed.

Lemma notes_Inv_run sched :
  forall tr0 s0 tr s,
    notes_Inv tr0 s0 -> notes_run sched s0 = Some (tr, s) ->
    notes_Inv (tr0 ++ tr) s.
Proof.
  induction sched as [| p sched IH]; simpl; intros tr0 s0 tr s HI H.
  - injection H as <- <-. now rewrite app_nil_r.
  - destruct (notes_step p s0) as [[e s1] |] eqn:Es; try discriminate.
    destruct (notes_run sched s1) as [[tr1 s2] |] eqn:E; try discriminate.
    injection H as <- <-.
    change (e :: tr1) with ([e] ++ tr1). rewrite app_assoc.
    eapply IH; [eapply notes_Inv_step |]; eassumption.
Qed.

Lemma notes_Inv_reachable sched tr s :
  notes_run sched notes_init = Some (tr, s) -> notes_Inv tr s.
Proof. intros H. exact (notes_Inv_run sched [] notes_init tr s notes_Inv_init H). Qed.

Lemma notes_measure_step p s e s' :
  notes_step p s = Some (e, s') -> 0 <= notes_measure s' < notes_measure s.
Proof.
  notes_cases s p.
  all: intros H; injection H as <- <-.
  all: unfold notes_measure, n_set_producer, n_set_consumer, n_set_status,
         n_close_done, n_print, notes_main_rank, notes_emit_rank; nproj.
  all: case_ifs; nproj.
  all: pose proof (iters_nonneg mi); pose proof (iters_nonneg (wrap_int (mi + 1))).
  all: try lia.
  all: match goal with
       | Hb : (?m <=? 100) = true |- _ =>
           apply Z.leb_le in Hb; pose proof (iters_next m Hb); lia
       end.
Qed.

Lemma notes_measure_run sched :
  forall s tr s',
    notes_run sched s = Some (tr, s') ->
    0 <= notes_measure s' /\
    notes_measure s' + Z.of_nat (List.length sched) <= notes_measure s.
Proof.
  induction sched as [| p sched IH]; simpl List.length; intros s tr s' H.
  - simpl in H. injection H as _ <-. split; [| lia].
    unfold notes_measure, notes_main_rank, notes_emit_rank.
    pose proof (iters_nonneg (nm_i (n_consumer s))).
    pose proof (iters_nonneg (wrap_int (nm_i (n_consumer s) + 1))).
    destruct (n_st s); try lia.
    destruct (nm_pc (n_consumer s)); destruct (ne_pc (n_producer s));
      case_ifs; lia.
  - simpl in H.
    destruct (notes_step p s) as [[e s1] |] eqn:Es; try discriminate.
    destruct (notes_run sched s1) as [[tr1 s2] |] eqn:E; try discriminate.
    injection H as _ <-.
    pose proof (notes_measure_step _ _ _ _ Es). pose proof (IH _ _ _ E). lia.
Qed.

(** In a reachable state of the notes' program that is still running,
    some pick can run. *)
Lemma notes_progress tr s :
  notes_Inv tr s -> n_st s = Running -> notes_halted s = false.
Proof.
  intros [H1 H2 H3 H4 H5 H6 H7 H8 H9].
  destruct s as [x [epc ei] [mpc mi] [wc] [dc] out].
  unfold notes_main_ok, notes_emit_ok, notes_received in *; nproj.
  intros ->. subst wc dc.
  unfold notes_halted, notes_picks, notes_step, notes_step_emit, notes_step_main,
    notes_step_case, notes_step_meet, notes_ready, n_crash; nproj.
  destruct epc.
  - destruct H5 as (Hr & Hi & _).
    rewrite (index_word_at ei _ Hr Hi). reflexivity.
  - destruct mpc; try reflexivity; intuition congruence.
  - reflexivity.
  - reflexivity.
  - reflexivity.
Qed.


(** Every execution of the notes' program is finite and does not get
    stuck: it ends with [main] returning or with a panic, and the only
    panic there is is [emit]'s [doneChannel <- true] on the channel it has
    just closed.  Either way the 101 words of the cycle were printed
    before. *)
Theorem notes_outcome sched tr s :
  notes_run sched notes_init = Some (tr, s) ->
  (List.length sched <= 2044)%nat /\
  n_stdout s = firstn (List.length (n_stdout s)) (cycle 101 words) /\
  (n_st s = Crashed ->
   notes_panics tr = ["send on closed channel"%string] /\
   ne_pc (n_producer s) = NClosed /\ closed (n_doneChannel s) = true) /\
  (notes_halted s = true ->
   (n_st s = Exited \/ n_st s = Crashed) /\ n_stdout s = cycle 101 words).
Proof.
  intros R. pose proof (notes_Inv_reachable _ _ _ R) as HI.
  pose proof (ninv_main _ _ HI) as M. pose proof (ninv_emit _ _ HI) as (_ & E).
  pose proof (ninv_out _ _ HI) as O.
  assert (Hc : n_st s = Crashed ->
               notes_panics tr = ["send on closed channel"%string] /\
               ne_pc (n_producer s) = NClosed).
  { intros Hc. apply (ninv_crash _ _ HI) in Hc.
    destruct (ninv_panics _ _ HI) as [Hp | Hp]; [contradiction | exact Hp]. }
  assert (Hl : n_st s <> Running -> notes_lines (n_consumer s) = 101).
  { intros Hs. unfold notes_main_ok, notes_lines in *.
    destruct (n_st s) eqn:Es; [congruence | |].
    - rewrite (ninv_exit _ _ HI Es) in *. exact M.
    - destruct (Hc eq_refl) as (_ & Hn). rewrite Hn in E.
      destruct E as [E | E]; rewrite E in *; exact M. }
  rewrite cycle_word_seq.
  split; [| split; [| split]].
  - pose proof (notes_measure_run _ _ _ _ R) as (Hm0 & Hm).
    change (notes_measure notes_init) with 2044 in Hm. lia.
  - rewrite O, word_seq_length. symmetry. apply word_seq_prefix.
    unfold notes_main_ok, notes_lines in *.
    destruct (nm_pc (n_consumer s)); lia.
  - intros Hx. destruct (Hc Hx) as (Hp & Hn). repeat split; try assumption.
    rewrite (ninv_done _ _ HI), Hn. reflexivity.
  - intros Hh.
    assert (Hs : n_st s <> Running).
    { intros Hr. rewrite (notes_progress _ _ HI Hr) in Hh. discriminate. }
    split.
    + destruct (n_st s); auto. congruence.
    + rewrite O, (Hl Hs). reflexivity.
Qed.

Lemma notes_outcome_witness :
  n_st (notes_final_of notes_sched_exit) = Exited /\
  n_stdout (notes_final_of notes_sched_exit) = cycle 101 words.
Proof.
  destruct (notes_outcome notes_sched_exit (notes_trace_of notes_sched_exit)
              (notes_final_of notes_sched_exit)) as (_ & _ & _ & H).
  - vm_compute. reflexivity.
  - destruct H as (_ & H).
    + vm_compute. reflexivity.
    + split; [vm_compute; reflexivity | exact H].
Defined.

(** Both outcomes occur.  When [emit] runs on after its [close] it panics
    with "send on closed channel"; when [main], woken by the [close],
    returns first, the process exits normally. *)
Theorem notes_may_panic_or_exit :
  (notes_run notes_sched_crash notes_init
   = Some (notes_trace_of notes_sched_crash, notes_final_of notes_sched_crash) /\
   n_st (notes_final_of notes_sched_crash) = Crashed /\
   notes_panics (notes_trace_of notes_sched_crash)
   = ["send on closed channel"%string]) /\
  (notes_run notes_sched_exit notes_init
   = Some (notes_trace_of notes_sched_exit, notes_final_of notes_sched_exit) /\
   n_st (notes_final_of notes_sched_exit) = Exited /\
   notes_panics (notes_trace_of notes_sched_exit) = []).
Proof.
  split; (split; [vm_compute; reflexivity |]);
    (split; vm_compute; reflexivity).
Qed.

(** [main]'s final [<-doneChannel] never receives the [true] that [emit]
    sends: no execution has an acknowledgement, and [main] gets past that
    receive only once [doneChannel] is closed, with the zero value.  After
    the done case [emit] never comes back to its [select]. *)
Theorem notes_ack_never_received sched tr s :
  notes_run sched notes_init = Some (tr, s) ->
  notes_acks tr = [] /\
  notes_step NMeet s = None /\
  (nm_pc (n_consumer s) = NMReturn ->
   closed (n_doneChannel s) = true /\ ne_pc (n_producer s) = NClosed) /\
  (nm_pc (n_consumer s) = NMWait ->
   ne_pc (n_producer s) = NDone \/ ne_pc (n_producer s) = NClosed).
Proof.
  intros R. pose proof (notes_Inv_reachable _ _ _ R) as HI.
  pose proof (ninv_emit _ _ HI) as (_ & E).
  pose proof (ninv_done _ _ HI) as D.
  split; [apply (ninv_acks _ _ HI) |].
  split; [| split].
  - unfold notes_step, notes_step_meet. rewrite D.
    destruct (n_st s); try reflexivity.
    destruct (ne_pc (n_producer s)); try reflexivity.
    destruct (nm_pc (n_consumer s)); reflexivity.
  - intros Hm. rewrite D.
    destruct (ne_pc (n_producer s)); intuition congruence.
  - intros Hm.
    destruct (ne_pc (n_producer s)); intuition congruence.
Qed.

Lemma notes_ack_never_received_witness :
  notes_acks (notes_trace_of notes_sched_exit) = [] /\
  closed (n_doneChannel (notes_final_of notes_sched_exit)) = true.
Proof.
  destruct (notes_ack_never_received notes_sched_exit
              (notes_trace_of notes_sched_exit) (notes_final_of notes_sched_exit))
    as (H1 & _ & H2 & _).
  - vm_compute. reflexivity.
  - destruct H2 as (H2 & _); [vm_compute; reflexivity |].
    split; assumption.
Defined.

(** ** Functions of the notes: counters *)

Lemma wrap_int_idem a b : wrap_int (wrap_int a + b) = wrap_int (a + b).
Proof.
  unfold wrap_int. f_equal.
  replace ((a + 2 ^ 63) mod 2 ^ 64 - 2 ^ 63 + b + 2 ^ 63)
    with ((a + 2 ^ 63) mod 2 ^ 64 + b) by lia.
  rewrite Zplus_mod_idemp_l. f_equal. lia.
Qed.

Lemma wrap_int_range z : - 2 ^ 63 <= wrap_int z < 2 ^ 63.
Proof.
  unfold wrap_int. pose proof (Z.mod_pos_bound (z + 2 ^ 63) (2 ^ 64) ltac:(lia)). lia.
Qed.

(** A counter that adds [f x] for every [x] of a list ends at the sum,
    reduced to an [int]. *)
Lemma fold_wrap {A} (f : A -> Z) (l : list A) :
  forall a,
    fold_left (fun acc x => wrap_int (acc + f x)) l (wrap_int a)
    = wrap_int (a + fold_right (fun x t => f x + t) 0 l).
Proof.
  induction l as [| x l IH]; simpl; intros a.
  - now rewrite Z.add_0_r.
  - rewrite wrap_int_idem, IH. f_equal. lia.
Qed.

Lemma fold_right_add_app {A} (f : A -> Z) (a b : list A) :
  fold_right (fun x t => f x + t) 0 (a ++ b)
  = fold_right (fun x t => f x + t) 0 a + fold_right (fun x t => f x + t) 0 b.
Proof. induction a as [| x a IH]; simpl; [reflexivity | rewrite IH; lia]. Qed.

Lemma fold_right_add_length {A} (l : list A) :
  fold_right (fun _ t => 1 + t) 0 l = Z.of_nat (List.length l).
Proof.
  induction l as [| x l IH]; [reflexivity |].
  cbn [fold_right List.length]. rewrite IH. lia.
Qed.

(** [sum] is the sum of the elements reduced to an [int], whatever
    happens in between: it is the exact sum whenever that is an [int], the
    sum of a concatenation is the reduced sum of the two sums, and the sum
    of no element is 0. *)
Theorem sum_is_the_wrapped_sum (a b : list Z) :
  SummableSlice_sum a = wrap_int (fold_right Z.add 0 a) /\
  (- 2 ^ 63 <= fold_right Z.add 0 a < 2 ^ 63 ->
   SummableSlice_sum a = fold_right Z.add 0 a) /\
  SummableSlice_sum (a ++ b) = wrap_int (SummableSlice_sum a + SummableSlice_sum b) /\
  SummableSlice_sum [] = 0.
Proof.
  assert (H : forall l, SummableSlice_sum l = wrap_int (fold_right Z.add 0 l)).
  { intros l. unfold SummableSlice_sum.
    change 0 with (wrap_int 0) at 1.
    exact (fold_wrap (fun n => n) l 0). }
  split; [apply H | split; [| split]].
  - intros Hr. rewrite H. apply wrap_int_small. exact Hr.
  - rewrite !H, wrap_int_idem, Z.add_comm, wrap_int_idem. f_equal.
    change Z.add with (fun x t : Z => (fun n => n) x + t).
    rewrite (fold_right_add_app (fun n => n)). lia.
  - reflexivity.
Qed.

Lemma sum_is_the_wrapped_sum_witness :
  SummableSlice_sum [4; 7; 83; 29; 2; 1; 8; 5] = 139.
Proof.
  destruct (sum_is_the_wrapped_sum [4; 7; 83; 29; 2; 1; 8; 5] []) as (_ & H & _).
  rewrite H; [reflexivity | simpl; lia].
Defined.

(** ** Package [poem] *)

Lemma fold_left_concat {A B} (g : B -> A -> B) (ll : list (list A)) :
  forall acc,
    fold_left (fun acc l => fold_left g l acc) ll acc = fold_left g (concat ll) acc.
Proof.
  induction ll as [| l ll IH]; simpl; intros acc; [reflexivity |].
  rewrite IH, fold_left_app. reflexivity.
Qed.

Lemma sum_lengths {A} (ll : list (list A)) :
  fold_right (fun l t => Z.of_nat (List.length l) + t) 0 ll
  = Z.of_nat (List.length (concat ll)).
Proof.
  induction ll as [| l ll IH]; [reflexivity |].
  cbn [fold_right concat]. rewrite IH, length_app. lia.
Qed.

(** The number of pieces [strings.Split] gives is one more than the
    number of separators. *)
Lemma Split_length sep s :
  List.length (strings_Split sep s)
  = S (List.length (filter (Z.eqb sep) s)).
Proof.
  induction s as [| r s IH]; [reflexivity |].
  cbn [strings_Split filter]. rewrite (Z.eqb_sym sep r).
  destruct (r =? sep).
  - cbn [List.length]. now rewrite IH.
  - destruct (strings_Split sep s) as [| w ws]; [discriminate | exact IH].
Qed.

Lemma sum_pieces (ls : list Line) :
  fold_right (fun l t => Z.of_nat (List.length (strings_Split blank l)) + t) 0 ls
  = Z.of_nat (List.length ls)
    + Z.of_nat (List.length (filter (Z.eqb blank) (concat ls))).
Proof.
  induction ls as [| l ls IH]; [reflexivity |].
  cbn [fold_right concat List.length]. rewrite IH, Split_length, filter_app, length_app.
  lia.
Qed.

(** [NumLines] counts the lines of all stanzas.  [NumWords] counts, for
    every line, one more than its blanks: a line with no text counts as
    one word and every further blank in a row as another, so [NumWords]
    is the number of lines plus the number of blanks.  The test of the
    notes, two words in "hi there", passes. *)
Theorem words_are_lines_plus_blanks (p : Poem) :
  NumLines p = wrap_int (Z.of_nat (List.length (concat p))) /\
  NumWords p
  = wrap_int (Z.of_nat (List.length (concat p))
              + Z.of_nat (List.length (filter (Z.eqb blank) (concat (concat p))))) /\
  NumWords p
  = wrap_int (NumLines p
              + Z.of_nat (List.length (filter (Z.eqb blank) (concat (concat p))))) /\
  NumWords [[line_of ""]] = 1 /\
  NumWords [[line_of "a  b"]] = 3 /\
  NumWords [[line_of "hi there"]] = 2.
Proof.
  assert (HL : NumLines p = wrap_int (Z.of_nat (List.length (concat p)))).
  { unfold NumLines, Stanza_NumLines. change 0 with (wrap_int 0) at 1.
    rewrite (fold_wrap (fun s : Stanza => Z.of_nat (List.length s)) p 0).
    cbv beta. now rewrite Z.add_0_l, sum_lengths. }
  assert (HW : NumWords p
               = wrap_int (Z.of_nat (List.length (concat p))
                           + Z.of_nat (List.length
                                         (filter (Z.eqb blank) (concat (concat p)))))).
  { unfold NumWords.
    rewrite (fold_left_concat
               (fun count (l : Line) =>
                  wrap_int (count + Z.of_nat (List.length (strings_Split blank l))))).
    change 0 with (wrap_int 0) at 1.
    rewrite (fold_wrap
               (fun l : Line => Z.of_nat (List.length (strings_Split blank l)))
               (concat p) 0).
    cbv beta. now rewrite Z.add_0_l, sum_pieces. }
  split; [exact HL | split; [exact HW | split]].
  - rewrite HW, HL, wrap_int_idem. reflexivity.
  - repeat split; reflexivity.
Qed.

Lemma count_runes (l : list rune) :
  forall v c,
    fold_left count_rune l (wrap_int v, wrap_int c)
    = (wrap_int (v + Z.of_nat (List.length (filter is_vowel l))),
       wrap_int (c + Z.of_nat (List.length (filter (fun r => negb (is_vowel r)) l)))).
Proof.
  induction l as [| r l IH]; intros v c.
  - simpl. now rewrite !Z.add_0_r.
  - cbn [fold_left filter count_rune]. destruct (is_vowel r); cbn [negb].
    + rewrite wrap_int_idem, IH. cbn [List.length]. f_equal. f_equal. lia.
    + rewrite wrap_int_idem, IH. cbn [List.length]. f_equal. f_equal. lia.
Qed.

(** [Stats] counts as vowels the runes a, e, i, o, u in lower case, and as
    consonants every other rune, whatever it is: a capital vowel, a blank,
    a digit.  So the two counts add up to the number of runes of the
    poem. *)
Theorem stats_count_every_rune (p : Poem) :
  let runes := concat (concat p) in
  Stats p = (wrap_int (Z.of_nat (List.length (filter is_vowel runes))),
             wrap_int (Z.of_nat (List.length
                                   (filter (fun r => negb (is_vowel r)) runes)))) /\
  wrap_int (fst (Stats p) + snd (Stats p)) = wrap_int (Z.of_nat (List.length runes)) /\
  (forall r, is_vowel r = true <->
             r = 97 \/ r = 101 \/ r = 105 \/ r = 111 \/ r = 117) /\
  Stats [[line_of "A e 1"]] = (1, 4).
Proof.
  intros runes.
  assert (HS : Stats p
               = (wrap_int (Z.of_nat (List.length (filter is_vowel runes))),
                  wrap_int (Z.of_nat (List.length
                                        (filter (fun r => negb (is_vowel r)) runes))))).
  { unfold Stats.
    rewrite (fold_left_concat
               (fun acc (l : Line) => fold_left count_rune l acc)).
    rewrite (fold_left_concat count_rune).
    change (0, 0) with (wrap_int 0, wrap_int 0).
    rewrite count_runes. reflexivity. }
  split; [exact HS | split; [| split]].
  - rewrite HS. cbn [fst snd].
    rewrite wrap_int_idem, Z.add_comm, wrap_int_idem. f_equal.
    clear HS. induction runes as [| r l IH]; [reflexivity |].
    cbn [filter]. destruct (is_vowel r); cbn [negb List.length]; lia.
  - intros r. unfold is_vowel. cbn [existsb]. rewrite !orb_true_iff, !Z.eqb_eq.
    intuition discriminate.
  - reflexivity.
Qed.

Lemma stats_count_every_rune_witness :
  is_vowel 97 = true /\ is_vowel 65 = false /\ is_vowel blank = false.
Proof.
  destruct (stats_count_every_rune [[line_of "A e 1"]]) as (_ & _ & H & _).
  split; [apply H; left; reflexivity |].
  split; apply not_true_is_false; intros E; apply H in E;
    unfold blank in E; intuition discriminate.
Defined.

(** ** [LoadPoem] *)

Lemma poem_lines_snoc (q : Poem) (s : Stanza) :
  q <> [] -> poem_lines (q ++ [s]) = poem_lines q ++ [] :: s.
Proof.
  induction q as [| t q IH]; intros Hq; [contradiction |].
  destruct q as [| t' q].
  - reflexivity.
  - change (poem_lines ((t :: t' :: q) ++ [s]))
      with (t ++ [] :: poem_lines ((t' :: q) ++ [s])).
    rewrite IH by discriminate.
    change (poem_lines (t :: t' :: q)) with (t ++ [] :: poem_lines (t' :: q)).
    now rewrite <- app_assoc.
Qed.

Lemma poem_lines_last (q : Poem) (s t : Stanza) :
  poem_lines (q ++ [s ++ t]) = poem_lines (q ++ [s]) ++ t.
Proof.
  destruct q as [| u q]; [reflexivity |].
  rewrite !poem_lines_snoc by discriminate.
  now rewrite <- app_assoc.
Qed.

(** The loop keeps what was read: the stanzas so far, the stanza under
    way and the lines to come are the lines of the file. *)
Lemma scan_lines_reads (lines : list Line) :
  forall p s p' s',
    scan_lines lines p s = (p', s') ->
    poem_lines (p' ++ [s']) = poem_lines (p ++ [s]) ++ lines /\
    Z.of_nat (List.length p')
    = Z.of_nat (List.length p)
      + Z.of_nat (List.length (filter (fun l => match l with [] => true | _ => false end)
                                 lines)) /\
    (Forall (Forall (fun l : Line => l <> [])) p ->
     Forall (fun l : Line => l <> []) s ->
     Forall (Forall (fun l : Line => l <> [])) (p' ++ [s'])).
Proof.
  induction lines as [| l lines IH]; intros p s p' s' H.
  - simpl in H. injection H as <- <-. rewrite app_nil_r. repeat split; try (simpl; lia).
    intros Hp Hs. apply Forall_app. split; [exact Hp | constructor; [exact Hs | constructor]].
  - destruct l as [| r l]; cbn [scan_lines] in H.
    + destruct (IH _ _ _ _ H) as (H1 & H2 & H3).
      rewrite H1, poem_lines_snoc by (destruct p; discriminate).
      rewrite <- app_assoc. repeat split.
      * cbn [filter List.length]. rewrite H2, length_app. simpl List.length. lia.
      * intros Hp Hs. apply H3; [| constructor].
        apply Forall_app. split; [exact Hp | constructor; [exact Hs | constructor]].
    + destruct (IH _ _ _ _ H) as (H1 & H2 & H3).
      rewrite H1, poem_lines_last, <- app_assoc. repeat split.
      * cbn [filter]. exact H2.
      * intros Hp Hs. apply H3; [exact Hp |].
        apply Forall_app. split; [exact Hs | constructor; [discriminate | constructor]].
Qed.

(** Without an error [LoadPoem] returns a poem whose stanzas, written with
    one empty line between them, are the lines of the file: it has one
    stanza more than the file has empty lines (one empty stanza for an
    empty file) and no empty line in a stanza.  When the open or the scan
    fails it returns the error and no poem, whatever was read. *)
Theorem LoadPoem_keeps_the_lines (lines : list Line) (err : string) :
  (exists p,
      LoadPoem (Opened lines None) = inl p /\
      poem_lines p = lines /\
      NumStanzas p
      = 1 + Z.of_nat (List.length
                        (filter (fun l => match l with [] => true | _ => false end)
                           lines)) /\
      Forall (Forall (fun l : Line => l <> [])) p) /\
  LoadPoem (Opened [] None) = inl [[]] /\
  LoadPoem (Opened lines (Some err)) = inr err /\
  LoadPoem (OpenFails err) = inr err.
Proof.
  split; [| split; [reflexivity | split; [| reflexivity]]].
  - unfold LoadPoem. destruct (scan_lines lines [] []) as [p s] eqn:E.
    destruct (scan_lines_reads _ _ _ _ _ E) as (H1 & H2 & H3).
    exists (p ++ [s]). split; [reflexivity | split; [exact H1 | split]].
    + unfold NumStanzas. rewrite length_app. simpl List.length in *. lia.
    + apply H3; constructor.
  - unfold LoadPoem. destruct (scan_lines lines [] []). reflexivity.
Qed.




(** ** [shuffle] *)

Lemma set_nth_length {A} (s : list A) :
  forall i x, List.length (set_nth i x s) = List.length s.
Proof.
  induction s as [| y s IH]; intros [| i] x; simpl; try reflexivity.
  now rewrite IH.
Qed.

Lemma nth_error_set_nth {A} (s : list A) :
  forall i j x y,
    nth_error s j = Some y ->
    nth_error (set_nth i x s) j = Some (if Nat.eqb i j then x else y).
Proof.
  induction s as [| z s IH]; intros i j x y H.
  - destruct j; discriminate.
  - destruct i as [| i], j as [| j]; simpl in *.
    + reflexivity.
    + exact H.
    + exact H.
    + apply IH. exact H.
Qed.

(** Putting [y] in the place of [x] exchanges the two, up to the order. *)
Lemma set_nth_perm {A} (s : list A) :
  forall i x y,
    nth_error s i = Some x -> Permutation (x :: set_nth i y s) (y :: s).
Proof.
  induction s as [| z s IH]; intros [| i] x y H; simpl in *; try discriminate.
  - injection H as ->. apply perm_swap.
  - eapply perm_trans; [apply perm_swap |].
    eapply perm_trans; [apply perm_skip, IH, H |]. apply perm_swap.
Qed.

Lemma at_index_Some {A} (s : list A) (i : Z) :
  0 <= i < Len s ->
  exists x, at_index s i = Some x /\ nth_error s (Z.to_nat i) = Some x.
Proof.
  intros Hi. unfold at_index.
  replace ((0 <=? i) && (i <? Len s)) with true
    by (symmetry; apply andb_true_iff; split;
        [apply Z.leb_le | apply Z.ltb_lt]; lia).
  destruct (nth_error s (Z.to_nat i)) as [x |] eqn:E; [eauto |].
  apply nth_error_None in E. unfold Len in Hi. lia.
Qed.

Lemma Swap_permutes {A} (s : list A) (i j : Z) :
  0 <= i < Len s -> 0 <= j < Len s ->
  exists s', Swap i j s = Returns s' /\ Permutation s s' /\ Len s' = Len s.
Proof.
  intros Hi Hj.
  destruct (at_index_Some s i Hi) as (x & Ax & Nx).
  destruct (at_index_Some s j Hj) as (y & Ay & Ny).
  unfold Swap. rewrite Ax, Ay. eexists. split; [reflexivity |]. split.
  - pose proof (set_nth_perm s _ x y Nx) as P1.
    pose proof (nth_error_set_nth s (Z.to_nat i) (Z.to_nat j) y y Ny) as Nj.
    replace (if Nat.eqb (Z.to_nat i) (Z.to_nat j) then y else y) with y in Nj
      by (destruct (Nat.eqb _ _); reflexivity).
    pose proof (set_nth_perm _ _ y x Nj) as P2.
    apply (Permutation_cons_inv (a := y)).
    eapply perm_trans; [symmetry; exact P1 |]. symmetry. exact P2.
  - unfold Len. now rewrite !set_nth_length.
Qed.

Lemma shuffle_loop_permutes {A} (rnd : Z -> Z) (fuel : nat) :
  forall i (s : list A),
    0 <= i <= Len s -> Len s < 2 ^ 63 -> (Z.to_nat (Len s - i) <= fuel)%nat ->
    exists s', shuffle_loop fuel rnd i s = Returns s' /\ Permutation s s'.
Proof.
  induction fuel as [| fuel IH]; intros i s Hi Hl Hf.
  - assert (i = Len s) by lia. subst i.
    cbn [shuffle_loop]. rewrite Z.ltb_irrefl. eauto.
  - cbn [shuffle_loop]. destruct (Z.ltb_spec i (Len s)) as [Hlt | Hge]; [| eauto].
    unfold rand_Intn. destruct (Z.leb_spec (Len s - i) 0) as [Hn | Hn]; [lia |].
    pose proof (Z.mod_pos_bound (rnd i) (Len s - i) Hn) as Hj.
    destruct (Swap_permutes s i (rnd i mod (Len s - i)) ltac:(lia) ltac:(lia))
      as (s1 & -> & P1 & L1).
    rewrite wrap_int_small by lia.
    destruct (IH (i + 1) s1 ltac:(lia) ltac:(lia) ltac:(lia)) as (s' & -> & P').
    exists s'. split; [reflexivity |]. eapply perm_trans; eassumption.
Qed.

(** [shuffle], on an [intSlice] or a [stringSlice], never panics and
    never loops: whatever [rand.Intn] returns it ends with the same
    elements in some order. *)
Theorem shuffle_permutes {A} (rnd : Z -> Z) (s : list A) :
  Len s < 2 ^ 63 ->
  exists s', shuffle rnd s = Returns s' /\ Permutation s s' /\ Len s' = Len s.
Proof.
  intros Hl. unfold shuffle.
  destruct (shuffle_loop_permutes rnd (List.length s) 0 s) as (s' & R & P).
  - unfold Len. lia.
  - exact Hl.
  - unfold Len. lia.
  - exists s'. split; [exact R | split; [exact P |]].
    unfold Len. now rewrite (Permutation_length P).
Qed.

Lemma shuffle_permutes_witness :
  exists s', shuffle (fun i => 7 * i + 3) [1; 2; 3; 4; 5; 6; 7; 8; 9] = Returns s' /\
             Permutation [1; 2; 3; 4; 5; 6; 7; 8; 9] s'.
Proof.
  destruct (shuffle_permutes (fun i => 7 * i + 3) [1; 2; 3; 4; 5; 6; 7; 8; 9])
    as (s' & H1 & H2 & _).
  - vm_compute. reflexivity.
  - exists s'. split; assumption.
Defined.

(** ** [getID] *)

Lemma getID_sends_formula n :
  forall id,
    getID_sends n id = map (fun k => wrap_int (id + Z.of_nat k)) (seq 1 n).
Proof.
  induction n as [| n IH]; intros id; [reflexivity |].
  cbn [getID_sends seq map]. f_equal.
  rewrite IH, <- (seq_shift n 1), map_map. apply map_ext. intros k.
  rewrite wrap_int_idem. f_equal. lia.
Qed.

(** The [k]-th value [getID] sends is [k], reduced to an [int]: as long
    as fewer than [2^63] ids were taken they are 1, 2, 3, ... and no id
    comes twice. *)
Theorem getID_ids_are_unique (n : nat) :
  Z.of_nat n < 2 ^ 63 ->
  getID_sends n 0 = map Z.of_nat (seq 1 n) /\ NoDup (getID_sends n 0).
Proof.
  intros Hn.
  assert (E : getID_sends n 0 = map Z.of_nat (seq 1 n)).
  { rewrite getID_sends_formula. apply map_ext_in. intros k Hk.
    apply in_seq in Hk. rewrite Z.add_0_l. apply wrap_int_small. lia. }
  split; [exact E |]. rewrite E.
  apply Injective_map_NoDup; [| apply seq_NoDup].
  intros a b. apply Nat2Z.inj.
Qed.

Lemma getID_ids_are_unique_witness : getID_sends 3 0 = [1; 2; 3].
Proof.
  apply (getID_ids_are_unique 3). vm_compute. reflexivity.
Defined.

(** ** [WeightedShuffle] *)

Section Weighted.

Context {A : Type} (weight : A -> Z).

Lemma weights_nonneg (s : list A) :
  Forall (fun a => 0 <= weight a) s -> 0 <= weights weight s.
Proof.
  induction 1 as [| a s Ha Hs IH]; cbn [weights fold_right]; [lia |].
  unfold weights in IH. lia.
Qed.

Lemma skipn_nth_error (s : list A) :
  forall n a, nth_error s n = Some a -> skipn n s = a :: skipn (S n) s.
Proof.
  induction s as [| b s IH]; intros [| n] a H; simpl in *; try discriminate.
  - now injection H as ->.
  - rewrite (IH n a H). reflexivity.
Qed.

Lemma Forall_skipn (P : A -> Prop) (s : list A) n :
  Forall P s -> Forall P (skipn n s).
Proof.
  intros H. rewrite <- (firstn_skipn n s) in H.
  apply Forall_app in H. tauto.
Qed.

Lemma weights_skipn (s : list A) n :
  Forall (fun a => 0 <= weight a) s ->
  0 <= weights weight (skipn n s) <= weights weight s.
Proof.
  intros H. split; [apply weights_nonneg, Forall_skipn, H |].
  rewrite <- (firstn_skipn n s) at 2. unfold weights.
  rewrite fold_right_add_app.
  pose proof (weights_nonneg (firstn n s)) as Hf. unfold weights in Hf.
  assert (Forall (fun a => 0 <= weight a) (firstn n s)).
  { rewrite <- (firstn_skipn n s) in H. apply Forall_app in H. tauto. }
  specialize (Hf H0). lia.
Qed.

Lemma set_nth_same (s : list A) :
  forall n a, nth_error s n = Some a -> set_nth n a s = s.
Proof.
  induction s as [| b s IH]; intros [| n] a H; simpl in *; try discriminate.
  - now injection H as ->.
  - now rewrite (IH n a H).
Qed.

Lemma Swap_same (s : list A) (i : Z) :
  0 <= i < Len s -> Swap i i s = Returns s.
Proof.
  intros Hi. destruct (at_index_Some s i Hi) as (x & Ax & Nx).
  unfold Swap. rewrite Ax. now rewrite !(set_nth_same s _ x Nx).
Qed.

(** Once [cum] is above [pos] the loop over [j] runs to its end and
    changes nothing. *)
Lemma weighted_inner_passes (s : list A) (pos i total : Z) (fuel : nat) :
  Forall (fun a => 0 <= weight a) s -> Len s < 2 ^ 63 ->
  forall j cum,
    0 <= j <= Len s -> pos < cum -> 0 <= cum ->
    cum + weights weight (skipn (Z.to_nat j) s) < 2 ^ 63 ->
    (Z.to_nat (Len s - j) <= fuel)%nat ->
    weighted_inner weight fuel pos i j cum total s = Returns (total, s).
Proof.
  intros Hw Hl. induction fuel as [| fuel IH]; intros j cum Hj Hp Hc Hs Hf.
  - assert (j = Len s) by lia. subst j.
    cbn [weighted_inner]. now rewrite Z.ltb_irrefl.
  - cbn [weighted_inner]. destruct (Z.ltb_spec j (Len s)) as [Hlt | Hge]; [| reflexivity].
    destruct (at_index_Some s j ltac:(lia)) as (a & Aa & Na).
    unfold Weight. rewrite Aa.
    rewrite (skipn_nth_error s _ a Na) in Hs. cbn [weights fold_right] in Hs.
    assert (Ha : 0 <= weight a).
    { rewrite Forall_forall in Hw. apply Hw. eapply nth_error_In. exact Na. }
    pose proof (weights_skipn s (S (Z.to_nat j)) Hw) as (Hr & _).
    unfold weights in Hr.
    rewrite (wrap_int_small (cum + weight a)) by lia.
    destruct (Z.geb_spec pos (cum + weight a)) as [Hge | Hlt']; [lia |].
    rewrite wrap_int_small by lia.
    apply IH; try lia.
    replace (Z.to_nat (j + 1)) with (S (Z.to_nat j)) by lia.
    unfold weights. lia.
Qed.

Lemma weighted_outer_keeps (rnd : Z -> Z) (s : list A) (fuel : nat) :
  Forall (fun a => 0 <= weight a) s -> Len s < 2 ^ 63 ->
  weights weight s < 2 ^ 63 ->
  forall i total,
    0 <= i <= Len s -> 0 < total < 2 ^ 63 ->
    (Z.to_nat (Len s - i) <= fuel)%nat ->
    weighted_outer weight fuel rnd i total s = Returns s.
Proof.
  intros Hw Hl Hs. induction fuel as [| fuel IH]; intros i total Hi Ht Hf.
  - assert (i = Len s) by lia. subst i.
    cbn [weighted_outer]. now rewrite Z.ltb_irrefl.
  - cbn [weighted_outer]. destruct (Z.ltb_spec i (Len s)) as [Hlt | Hge]; [| reflexivity].
    unfold rand_Intn. destruct (Z.leb_spec total 0) as [Hn | Hn]; [lia |].
    pose proof (Z.mod_pos_bound (rnd i) total Hn) as Hpos.
    set (pos := rnd i mod total) in *.
    destruct (List.length s) as [| n] eqn:En; [unfold Len in Hlt; lia |].
    cbn [weighted_inner].
    destruct (Z.ltb_spec i (Len s)) as [_ | Hge]; [| lia].
    destruct (at_index_Some s i ltac:(lia)) as (a & Aa & Na).
    unfold Weight. rewrite Aa.
    assert (Ha : 0 <= weight a).
    { rewrite Forall_forall in Hw. apply Hw. eapply nth_error_In. exact Na. }
    pose proof (weights_skipn s (Z.to_nat i) Hw) as (_ & Hi2).
    rewrite (skipn_nth_error s _ a Na) in Hi2. cbn [weights fold_right] in Hi2.
    pose proof (weights_skipn s (S (Z.to_nat i)) Hw) as (Hr & _).
    unfold weights in Hr, Hi2, Hs.
    rewrite Z.add_0_l, (wrap_int_small (weight a)) by lia.
    destruct (Z.geb_spec pos (weight a)) as [Hge | Hlt'].
    + rewrite Swap_same by lia.
      rewrite (wrap_int_small (total - weight a)), (wrap_int_small (i + 1)) by lia.
      apply IH; lia.
    + rewrite (wrap_int_small (i + 1)) by lia.
      rewrite weighted_inner_passes; try assumption; try lia.
      * apply IH; lia.
      * replace (Z.to_nat (i + 1)) with (S (Z.to_nat i)) by lia.
        unfold weights. lia.
      * unfold Len in *. lia.
Qed.

(** With weights that are not negative and whose sum is an [int] (it is
    below [2^63], so [total] does not overflow) [WeightedShuffle] does not
    shuffle: a swap is only ever made of an item with itself, so the
    collection comes back as it was, whatever [rand.Intn] returns.  That
    is when the weights add up to more than 0; when they are all 0 and
    there is an item, the first [rand.Intn(total)] panics. *)
Theorem WeightedShuffle_leaves_the_order (rnd : Z -> Z) (s : list A) :
  Forall (fun a => 0 <= weight a) s ->
  Len s < 2 ^ 63 -> weights weight s < 2 ^ 63 ->
  (0 < weights weight s -> WeightedShuffle weight rnd s = Returns s) /\
  (s <> [] -> weights weight s = 0 ->
   WeightedShuffle weight rnd s = Panics "invalid argument to Intn").
Proof.
  intros Hw Hl Hs.
  assert (Ht : total_weight weight s = weights weight s).
  { unfold total_weight, weights. change 0 with (wrap_int 0) at 1.
    rewrite (fold_wrap weight s 0), Z.add_0_l.
    apply wrap_int_small. pose proof (weights_nonneg s Hw). unfold weights in *. lia. }
  unfold WeightedShuffle. rewrite Ht. split.
  - intros Hpos. apply weighted_outer_keeps; try assumption; unfold Len; lia.
  - intros Hne H0. rewrite H0.
    destruct s as [| a s]; [contradiction |].
    cbn [List.length weighted_outer].
    destruct (Z.ltb_spec 0 (Len (a :: s))) as [_ | Hge];
      [reflexivity | unfold Len in Hge; simpl List.length in Hge; lia].
Qed.

End Weighted.

Lemma WeightedShuffle_leaves_the_order_witness :
  WeightedShuffle (fun a : Z => a) (fun i => 5 * i + 2) [3; 0; 4; 1] = Returns [3; 0; 4; 1].
Proof.
  apply (WeightedShuffle_leaves_the_order (fun a : Z => a)); try (simpl; lia).
  - repeat constructor; lia.
  - vm_compute. reflexivity.
Defined.
